(** * speciesRNN: the character-level language model notebook

    A shallow embedding of the data preparation and sampling cells of
    [speciesRNN.ipynb]: loading and normalising the species names, the
    vocabulary and its two mappings, the one-hot encoder that builds [X] and
    [Y], and the two autoregressive sampling loops.

    Conventions.
    - A Python [str] is a [list ascii]; a character is a code point below 256.
    - A NumPy array of rank three is a [list (list (list Z))]; the only
      values the notebook stores in one are [0.0] and [1.0], written [0], [1].
    - A Python exception is a value of [exn]; a computation that can raise
      returns a [result].
    - The Keras model and NumPy's global random generator are an interface
      ([Backend]); NumPy arrays that the sampling cells allocate live in a
      store of array objects, so that aliasing and copying are visible. *)

From Stdlib Require Import QArith Lqa Ascii.
From stdpp Require Import gmap strings list sorting.

Close Scope Q_scope.
Open Scope nat_scope.

Set Warnings "-clear-no-such-hyp".

(* ===================================================================== *)
(** * Exceptions *)
(* ===================================================================== *)

Inductive exn : Type :=
  | ValueError
  | IndexError
  | KeyError.

Inductive result (A : Type) : Type :=
  | Ok (a : A)
  | Raise (e : exn).
Arguments Ok {A} a.
Arguments Raise {A} e.

Definition rbind {A B} (m : result A) (f : A → result B) : result B :=
  match m with
  | Ok a => f a
  | Raise e => Raise e
  end.

Notation "x ←r m ; k" := (rbind m (fun x => k))
  (at level 100, m at next level, right associativity, only parsing).

Definition of_option {A} (e : exn) (o : option A) : result A :=
  match o with
  | Some a => Ok a
  | None => Raise e
  end.

(* ===================================================================== *)
(** * Cell 2: loading and normalising the species names *)
(* ===================================================================== *)

Abbreviation str := (list ascii) (only parsing).

Definition newline : ascii := "010"%char.
Definition terminator : ascii := "@"%char.

(** [str.lower()] on one code point below 256: the ASCII capitals and the
    Latin-1 capitals (all of 192..222 but the multiplication sign 215)
    move up by 32, every other character is unchanged. *)
Definition lower_char (c : ascii) : ascii :=
  let n := nat_of_ascii c in
  if ((65 <=? n) && (n <=? 90)) || ((192 <=? n) && (n <=? 214))
     || ((216 <=? n) && (n <=? 222))
  then ascii_of_nat (n + 32)
  else c.

Definition lower (s : str) : str := fmap lower_char s.

(** [s.replace(old, new)] where [old] and [new] are one character each. *)
Definition replace (old new : ascii) (s : str) : str :=
  fmap (fun c => if decide (c = old) then new else c) s.

(** [for line in h]: the lines of a text file, each with its newline kept;
    a last line that the file does not end with a newline is yielded as it
    is.  [content] is the text of the file as text mode gives it, every
    line ending read as one newline; [cur] is the part of the current line
    read so far. *)
Fixpoint file_lines_from (cur : str) (content : str) : list str :=
  match content with
  | [] => match cur with [] => [] | _ => [cur] end
  | c :: rest =>
      if decide (c = newline)
      then (cur ++ [c]) :: file_lines_from [] rest
      else file_lines_from (cur ++ [c]) rest
  end.

Definition file_lines (content : str) : list str := file_lines_from [] content.

(** [line.replace("\n", "@").lower()] *)
Definition normalize (line : str) : str := lower (replace newline terminator line).

(** [species], as the first loop of the cell leaves it. *)
Definition load_species (content : str) : list str :=
  foldl (fun species line => species ++ [normalize line]) [] (file_lines content).

(** [char_set], as the second loop of the cell leaves it. *)
Definition char_set_of (species : list str) : gset ascii :=
  foldl (fun cs i => foldl (fun cs j => {[j]} ∪ cs) cs i) ∅ species.

(* ===================================================================== *)
(** * Cell 3: the vocabulary and its mappings *)
(* ===================================================================== *)

(** Python orders one-character strings by code point. *)
Definition char_le (a b : ascii) : Prop := nat_of_ascii a ≤ nat_of_ascii b.

Global Instance char_le_dec : RelDecision char_le.
Proof. intros a b. unfold char_le. apply _. Defined.

Record vocab : Type := Vocab {
  n_x : nat;                    (* len(char_set) *)
  char_list : list ascii;       (* sorted(list(char_set)) *)
  char_map : gmap ascii nat     (* {i: c for c, i in enumerate(char_list)} *)
}.

Definition enumerate {A} (l : list A) : list (nat * A) := imap pair l.

Definition build_char_map (cl : list ascii) : gmap ascii nat :=
  foldl (fun m ci => <[ci.2 := ci.1]> m) ∅ (enumerate cl).

Definition build_vocab (species : list str) : vocab :=
  let cs := char_set_of species in
  let cl := merge_sort char_le (elements cs) in
  Vocab (size cs) cl (build_char_map cl).

(** [char_map[char]] raises [KeyError] for a character outside the map. *)
Definition char2idx (v : vocab) (char : ascii) : result nat :=
  of_option KeyError (char_map v !! char).

(** [char_list[idx]] for an index that is not negative. *)
Definition idx2char (v : vocab) (idx : nat) : result ascii :=
  of_option IndexError (char_list v !! idx).

(** A string literal as a Python [str]. *)
Definition py (s : string) : str := Stdlib.Strings.String.list_ascii_of_string s.

(* ===================================================================== *)
(** * Cell 4: one-hot encoding with zero padding *)
(* ===================================================================== *)

Abbreviation tensor := (list (list (list Z))) (only parsing).

(** [max(l)] raises [ValueError] on an empty list. *)
Definition py_max (l : list Z) : result Z :=
  match l with
  | [] => Raise ValueError
  | z :: l' => Ok (foldl Z.max z l')
  end.

(** [range(n)] is empty for [n <= 0]. *)
Definition range (n : Z) : list nat := seq 0 (Z.to_nat n).

Definition zeros (a b c : nat) : tensor :=
  replicate a (replicate b (replicate c 0%Z)).

(** [np.zeros((a, b, c))] raises [ValueError] for a negative dimension;
    [a] and [c] are lengths here, [b] is computed. *)
Definition np_zeros (a : nat) (b : Z) (c : nat) : result tensor :=
  if decide (b < 0)%Z then Raise ValueError
  else Ok (zeros a (Z.to_nat b) c).

(** [A[i, t, k] = z] raises [IndexError] out of bounds. *)
Definition set3 (A : tensor) (i t k : nat) (z : Z) : result tensor :=
  row ←r of_option IndexError (A !! i);
  vec ←r of_option IndexError (row !! t);
  if decide (k < length vec)
  then Ok (<[i := <[t := <[k := z]> vec]> row]> A)
  else Raise IndexError.

(** [chars[t]] for an index that is not negative. *)
Definition char_at (chars : str) (t : nat) : result ascii :=
  of_option IndexError (chars !! t).

(** A [for] loop whose body can raise. *)
Fixpoint for_each {A S} (body : S → A → result S) (s : S) (l : list A) : result S :=
  match l with
  | [] => Ok s
  | a :: l' => s' ←r body s a; for_each body s' l'
  end.

(** [maxlen = max([len(i) - 1 for i in species])] *)
Definition maxlen_of (species : list str) : result Z :=
  py_max (fmap (fun i => (Z.of_nat (length i) - 1)%Z) species).

(** The body of the inner loop, at sample [i] and step [t]. *)
Definition encode_step (v : vocab) (i : nat) (chars : str)
    (XY : tensor * tensor) (t : nat) : result (tensor * tensor) :=
  c ←r char_at chars t;
  k ←r char2idx v c;
  X ←r set3 XY.1 i t k 1%Z;
  c' ←r char_at chars (t + 1);
  k' ←r char2idx v c';
  Y ←r set3 XY.2 i t k' 1%Z;
  Ok (X, Y).

(** The body of the outer loop. *)
Definition encode_name (v : vocab) (XY : tensor * tensor) (ic : nat * str)
    : result (tensor * tensor) :=
  for_each (encode_step v ic.1 ic.2) XY (range (Z.of_nat (length ic.2) - 1)).

(** The whole cell: [X] and [Y] as it leaves them. *)
Definition encode (v : vocab) (species : list str) : result (tensor * tensor) :=
  maxlen ←r maxlen_of species;
  X ←r np_zeros (length species) maxlen (n_x v);
  Y ←r np_zeros (length species) maxlen (n_x v);
  for_each (encode_name v) (X, Y) (enumerate species).

(** [A[i, t, :]], where it exists. *)
Definition at2 (A : tensor) (i t : nat) : option (list Z) :=
  row ← A !! i; row !! t.

(** The one-hot vector of width [n] for index [k]. *)
Definition one_hot (n k : nat) : list Z := <[k := 1%Z]> (replicate n 0%Z).

(** The index a vector is the one-hot vector of, if it is one. *)
Definition onehot_index (vec : list Z) : option nat :=
  match list_find (fun z => z ≠ 0%Z) vec with
  | Some (k, _) => if decide (vec = one_hot (length vec) k) then Some k else None
  | None => None
  end.

(** Decoding a row of time steps as the round-trip law words it: a one-hot
    step gives the character of its index, any other step is skipped. *)
Definition decode_row (v : vocab) (row : list (list Z)) : result str :=
  for_each (fun out vec =>
              match onehot_index vec with
              | Some k => c ←r idx2char v k; Ok (out ++ [c])
              | None => Ok out
              end) [] row.

(** The one-hot index of [A[i, t, :]], if that is a one-hot vector. *)
Definition hot_at (A : tensor) (i t : nat) : option nat :=
  at2 A i t ≫= onehot_index.

(** A row of the encoding: the one-hot vectors of the indices [ks], then
    all-zero vectors up to [maxlen] steps. *)
Definition padded (n maxlen : nat) (ks : list nat) : list (list Z) :=
  fmap (one_hot n) ks ++ replicate (maxlen - length ks) (replicate n 0%Z).

(** The index of a character, where it has one. *)
Definition idx_of (v : vocab) (c : ascii) : nat := default 0 (char_map v !! c).

(** The characters of a name that the input and the target rows hold. *)
Definition input_chars (chars : str) : str := take (length chars - 1) chars.
Definition target_chars (chars : str) : str := drop 1 chars.

Definition X_row (v : vocab) (maxlen : nat) (chars : str) : list (list Z) :=
  padded (n_x v) maxlen (fmap (idx_of v) (input_chars chars)).
Definition Y_row (v : vocab) (maxlen : nat) (chars : str) : list (list Z) :=
  padded (n_x v) maxlen (fmap (idx_of v) (take (length chars - 1) (target_chars chars))).

Definition in_vocab (v : vocab) (chars : str) : Prop :=
  Forall (fun c => ∃ k, char2idx v c = Ok k ∧ k < n_x v) chars.

(** The one-hot encoding of a prefix, an array of shape [(1, len, n_x)]. *)
Definition prefix_encoding (v : vocab) (prefix : str) : tensor :=
  [padded (n_x v) (length prefix) (idx_of v <$> prefix)].

(* ===================================================================== *)
(** * The Keras model and NumPy's random generator *)
(* ===================================================================== *)

(** What the sampling cells use of the trained model and of [np.random]:
    [predict x] is [model.predict(x, verbose=0)], an array of shape
    [(1, T, n_x)] of probabilities; [randint low high] and [choice n p] are
    [np.random.randint(low, high)] (for [low < high]) and
    [np.random.choice(n, size=1, p=p)[0]], both reading and advancing the
    state [rng] of the global generator. *)
Class Backend : Type := {
  rng : Type;
  predict : tensor → result (list (list (list Q)));
  randint : nat → nat → rng → nat * rng;
  choice : nat → list Q → rng → result (nat * rng)
}.

(* ===================================================================== *)
(** * The store of array objects *)
(* ===================================================================== *)

(** A Python variable that holds an array holds a reference [loc] to an
    array object; the object's value is in the [heap]. *)
Abbreviation loc := positive (only parsing).

Record world `{Backend} : Type := World {
  heap : gmap loc tensor;
  gen : rng
}.

(** A run of a cell ends normally, ends by an exception, or is still
    running when the fuel given to its [while True] loop is used up. *)
Inductive outcome (A : Type) : Type :=
  | Done (a : A)
  | Raised (e : exn)
  | OutOfFuel.
Arguments Done {A} a.
Arguments Raised {A} e.
Arguments OutOfFuel {A}.

Section Monad.
Context `{Backend}.

Definition M (A : Type) : Type := world → outcome (A * world).

Definition ret {A} (a : A) : M A := fun w => Done (a, w).

Definition bind {A B} (m : M A) (f : A → M B) : M B :=
  fun w =>
    match m w with
    | Done (a, w') => f a w'
    | Raised e => Raised e
    | OutOfFuel => OutOfFuel
    end.

Definition lift {A} (r : result A) : M A :=
  fun w => match r with Ok a => Done (a, w) | Raise e => Raised e end.

Definition diverge {A} : M A := fun _ => OutOfFuel.

(** A new array object, at a reference no object has yet. *)
Definition alloc (a : tensor) : M loc :=
  fun w => let l := fresh (dom (heap w)) in
           Done (l, World _ (<[l := a]> (heap w)) (gen w)).

Definition load (l : loc) : M tensor :=
  fun w => Done (heap w !!! l, w).

Definition store (l : loc) (a : tensor) : M unit :=
  fun w => Done (tt, World _ (<[l := a]> (heap w)) (gen w)).

Definition with_rng {A} (f : rng → result (A * rng)) : M A :=
  fun w => match f (gen w) with
           | Ok (a, g) => Done (a, World _ (heap w) g)
           | Raise e => Raised e
           end.
End Monad.

Notation "'do' x <- m ; k" := (bind m (fun x => k))
  (at level 10, x name, m at level 100, k at level 200, only parsing).

(* ===================================================================== *)
(** * NumPy operations of the sampling cells *)
(* ===================================================================== *)

(** [A[:, :, k] = z] raises [IndexError] when [k] is out of bounds. *)
Definition set_last_axis (A : tensor) (k : nat) (z : Z) : result tensor :=
  if decide (Forall (Forall (fun vec : list Z => k < length vec)) A)
  then Ok ((fun row : list (list Z) => (fun vec : list Z => <[k := z]> vec) <$> row) <$> A)
  else Raise IndexError.

(** [A] and [B] have the same length along the last axis, as far as their
    vectors show it. *)
Definition same_width (A B : tensor) : Prop :=
  Forall (fun va => Forall (fun vb : list Z => length va = length vb) (concat B))
         (concat A).

Global Instance same_width_dec A B : Decision (same_width A B).
Proof. unfold same_width. apply _. Defined.

(** [np.concatenate((A, B), axis=1)] raises [ValueError] unless the two
    arrays agree along the other two axes. *)
Definition concatenate1 (A B : tensor) : result tensor :=
  if decide (length A = length B ∧ same_width A B)
  then Ok (zip_with app A B)
  else Raise ValueError.

(** [a[0]] and [a[-1]] on a list. *)
Definition first_of {A} (l : list A) : result A := of_option IndexError (l !! 0).
Definition last_of {A} (l : list A) : result A := of_option IndexError (last l).

Section Sampler.
Context `{Backend}.

Definition np_zeros3 (a b c : nat) : M loc := alloc (zeros a b c).

Definition np_copy (l : loc) : M loc := do a <- load l; alloc a.

Definition np_setitem3 (l : loc) (i t k : nat) (z : Z) : M unit :=
  do a <- load l; do a' <- lift (set3 a i t k z); store l a'.

Definition np_set_last_axis (l : loc) (k : nat) (z : Z) : M unit :=
  do a <- load l; do a' <- lift (set_last_axis a k z); store l a'.

Definition np_concatenate1 (l1 l2 : loc) : M loc :=
  do a <- load l1; do b <- load l2; do c <- lift (concatenate1 a b); alloc c.

(** [model.predict(x, verbose=0)[0][-1]], on the value of [x] and on the
    reference [x]. *)
Definition next_dist (a : tensor) : result (list Q) :=
  out ←r predict a;
  seq ←r first_of out;
  last_of seq.

Definition predict_last (x : loc) : M (list Q) :=
  do a <- load x; lift (next_dist a).

(** [np.random.randint(low, high)] raises [ValueError] unless [low < high]. *)
Definition np_randint (low high : nat) : M nat :=
  if decide (low < high)
  then with_rng (fun g => Ok (randint low high g))
  else lift (Raise ValueError).

Definition np_choice (n : nat) (p : list Q) : M nat := with_rng (choice n p).

(** ** The sampling loop (the same text in cells 6 and 7) *)

(** The first three statements of the loop body: the character sampled
    at this iteration, with its index. *)
Definition sample_char (v : vocab) (x : loc) : M (nat * ascii) :=
  do y_pred <- predict_last x;
  do idx_sampled <- np_choice (n_x v) y_pred;
  do char <- lift (idx2char v idx_sampled);
  ret (idx_sampled, char).

(** The last three statements: the running sequence with the one-hot
    vector of the sampled index appended, as a new array object. *)
Definition extend (v : vocab) (x : loc) (idx_sampled : nat) : M loc :=
  do x_new <- np_zeros3 1 1 (n_x v);
  do _ <- np_set_last_axis x_new idx_sampled 1%Z;
  np_concatenate1 x x_new.

(** [while True: ...], for at most [fuel] iterations. *)
Fixpoint sample_loop (fuel : nat) (v : vocab) (x : loc) (generated : str)
    : M (loc * str) :=
  match fuel with
  | 0 => diverge
  | S fuel' =>
      do ic <- sample_char v x;
      if decide (ic.2 = terminator) then ret (x, generated)
      else
        do x' <- extend v x ic.1;
        sample_loop fuel' v x' (generated ++ [ic.2])
  end.

(** ** Cell 6: the diagnostic sample printed at a checkpoint *)

Definition generate_name (fuel : nat) (v : vocab) : M str :=
  do first_idx <- np_randint 2 (n_x v);
  do x <- np_zeros3 1 1 (n_x v);
  do _ <- np_set_last_axis x first_idx 1%Z;
  do first <- lift (idx2char v first_idx);
  do xg <- sample_loop fuel v x [first];
  ret xg.2.

(** ** Cell 7: completing a prefix *)

(** [staph], the one-hot encoding of the prefix. *)
Fixpoint fill_prefix (v : vocab) (staph : loc) (prefix : str) (ts : list nat)
    : M unit :=
  match ts with
  | [] => ret tt
  | t :: ts' =>
      do c <- lift (char_at prefix t);
      do k <- lift (char2idx v c);
      do _ <- np_setitem3 staph 0 t k 1%Z;
      fill_prefix v staph prefix ts'
  end.

Definition encode_prefix (v : vocab) (prefix : str) : M loc :=
  do staph <- np_zeros3 1 (length prefix) (n_x v);
  do _ <- fill_prefix v staph prefix (range (Z.of_nat (length prefix)));
  ret staph.

(** One pass of [for _ in range(10)]: the candidate it adds. *)
Definition complete_once (fuel : nat) (v : vocab) (prefix : str) (staph : loc)
    : M str :=
  do x <- np_copy staph;
  do xg <- sample_loop fuel v x [];
  ret (prefix ++ xg.2).

Fixpoint complete_runs (runs fuel : nat) (v : vocab) (prefix : str)
    (staph : loc) (candidates : gset (list ascii)) : M (gset (list ascii)) :=
  match runs with
  | 0 => ret candidates
  | S runs' =>
      do c <- complete_once fuel v prefix staph;
      complete_runs runs' fuel v prefix staph ({[c]} ∪ candidates)
  end.

Definition complete_names (fuel : nat) (v : vocab) (prefix : str)
    : M (loc * gset (list ascii)) :=
  do staph <- encode_prefix v prefix;
  do candidates <- complete_runs 10 fuel v prefix staph ∅;
  ret (staph, candidates).
End Sampler.

(* ===================================================================== *)
(** * Runs of the sampling loop *)
(* ===================================================================== *)

Section Runs.
Context `{Backend}.

(** [sampled_run v x w draws x' w']: started on the running sequence [x]
    in the world [w], the loop samples the indices and characters
    [draws], none of them the terminator, extends the running sequence
    by each, then samples the terminator and stops, with the running
    sequence [x'] in the world [w']. *)
Inductive sampled_run (v : vocab) :
    loc → world → list (nat * ascii) → loc → world → Prop :=
  | run_stop x w idx w' :
      sample_char v x w = Done ((idx, terminator), w') →
      sampled_run v x w [] x w'
  | run_more x w idx char w1 x1 w2 draws x' w' :
      sample_char v x w = Done ((idx, char), w1) →
      char ≠ terminator →
      extend v x idx w1 = Done (x1, w2) →
      sampled_run v x1 w2 draws x' w' →
      sampled_run v x w ((idx, char) :: draws) x' w'.

(** [still_running v n x w]: the loop performs [n] iterations, none of
    which samples the terminator or raises. *)
Inductive still_running (v : vocab) : nat → loc → world → Prop :=
  | running_0 x w : still_running v 0 x w
  | running_S n x w idx char w1 x1 w2 :
      sample_char v x w = Done ((idx, char), w1) →
      char ≠ terminator →
      extend v x idx w1 = Done (x1, w2) →
      still_running v n x1 w2 →
      still_running v (S n) x w.

(** Every array object of [w] has the same value in [w']. *)
Definition unchanged (w w' : world) : Prop :=
  ∀ l, l ∈ dom (heap w) → heap w' !! l = heap w !! l.

(** The values the running sequence has at the start of each pass of
    [for _ in range(runs)]. *)
Fixpoint run_starts (runs fuel : nat) (v : vocab) (prefix : str)
    (staph : loc) (w : world) : list tensor :=
  match runs with
  | 0 => []
  | S runs' =>
      match np_copy staph w with
      | Done (x, w1) =>
          (heap w1 !!! x)
            :: match complete_once fuel v prefix staph w with
               | Done (_, w') => run_starts runs' fuel v prefix staph w'
               | _ => []
               end
      | _ => []
      end
  end.
End Runs.

(** An array of shape [(1, T, n)] with [T] at least one. *)
Definition shaped (n : nat) (a : tensor) : Prop :=
  ∃ row, a = [row] ∧ row ≠ [] ∧ Forall (fun vec => length vec = n) row.

(* ===================================================================== *)
(** * Hypotheses on the model and the generator *)
(* ===================================================================== *)

(** The mass a predicted vector gives the index [k]. *)
Definition mass (p : list Q) (k : nat) : Q := default 0%Q (p !! k).

Global Instance Qlt_dec (a b : Q) : Decision (a < b)%Q :=
  match Qlt_le_dec a b with
  | left H => left H
  | right H => right (Qle_not_lt _ _ H)
  end.

Section Assumptions.
Context `{Backend}.

(** The value of the array that [extend] allocates. *)
Definition extended (v : vocab) (x : tensor) (idx_sampled : nat) : result tensor :=
  x_new ←r set_last_axis (zeros 1 1 (n_x v)) idx_sampled 1%Z;
  concatenate1 x x_new.

(** The model's output gives the terminator no mass, at any step. *)
Definition terminator_impossible (v : vocab) : Prop :=
  ∀ a y_pred t, next_dist a = Ok y_pred →
    idx2char v t = Ok terminator → (mass y_pred t == 0)%Q.

(** [np.random.choice] draws an index of positive mass only. *)
Definition choice_in_support : Prop :=
  ∀ n p g k g', choice n p g = Ok (k, g') → (0 < mass p k)%Q.

(** No statement of the loop body raises. *)
Definition draws_succeed (v : vocab) : Prop :=
  length (char_list v) = n_x v ∧
  (∀ a, shaped (n_x v) a → ∃ y_pred, next_dist a = Ok y_pred) ∧
  (∀ a y_pred g, next_dist a = Ok y_pred →
     ∃ k g', choice (n_x v) y_pred g = Ok (k, g') ∧ k < n_x v).
End Assumptions.

(** ** A generator that replays a tape *)

(** A backend for running the cells on examples: the generator's state is
    the list of numbers it will draw, the model predicts the uniform
    distribution over [n] indices at every step. *)
Definition uniform (n : nat) : list Q := replicate n (1 # Pos.of_nat n)%Q.

Definition tape_backend (n : nat) : Backend := {|
  rng := list nat;
  predict := fun x => Ok ((fun row : list (list Z) => (fun _ => uniform n) <$> row) <$> x);
  randint := fun low high g =>
    match g with
    | [] => (low, [])
    | k :: g' => (low + k `mod` (high - low), g')
    end;
  choice := fun m p g =>
    match g with
    | [] => Raise ValueError
    | k :: g' => if decide (k < m) then Ok (k, g') else Raise ValueError
    end
|}.

(** A backend whose model puts all the mass on the index [k] at every
    step, and whose generator draws the least index of positive mass. *)
Definition point_mass (n k : nat) : list Q := <[k := 1%Q]> (replicate n 0%Q).

Definition certain_backend (n k : nat) : Backend := {|
  rng := unit;
  predict := fun x => Ok ((fun row : list (list Z) => (fun _ => point_mass n k) <$> row) <$> x);
  randint := fun low high g => (low, g);
  choice := fun m p g =>
    match list_find (fun q => (0 < q)%Q) p with
    | Some (i, _) => if decide (i < m) then Ok (i, g) else Raise ValueError
    | None => Raise ValueError
    end
|}.

(** The worlds the examples start from: no array object yet, the
    generator about to draw the numbers of [tape]. *)
Definition tape_world (n : nat) (tape : list nat) : @world (tape_backend n) :=
  @World (tape_backend n) ∅ tape.

(** The corpus of a file whose one line is "a-b.c": two of its characters
    sort before '@'. *)
Definition dotted_vocab : vocab :=
  build_vocab (load_species (py "a-b.c" ++ [newline])).

(** The world of the examples once [staph] is built for the prefix "ec". *)
Definition ec_world (tape : list nat) : @world (tape_backend 6) :=
  @World (tape_backend 6)
    {[ 1%positive := prefix_encoding (build_vocab [py "ecoli@"]) (py "ec") ]} tape.

(* ===================================================================== *)
(** * Cell 6: the training loop *)
(* ===================================================================== *)

(** The model as the training loop uses it: [fit m X Y g] is
    [model.fit(X, Y, batch_size=32, epochs=1, ...)] on the model in the
    state [m], giving the state it leaves the model in; it can read and
    advance the global generator, and it can raise.  [predict_with m] is
    [model.predict] in the state [m]. *)
Class Trainer : Type := {
  model : Type;
  trng : Type;
  fit : model → tensor → tensor → trng → result (model * trng);
  predict_with : model → tensor → result (list (list (list Q)));
  trainer_randint : nat → nat → trng → nat * trng;
  trainer_choice : nat → list Q → trng → result (nat * trng)
}.

(** What the sampling code sees of the model in the state [m]. *)
Definition backend_of `{Trainer} (m : model) : Backend := {|
  rng := trng;
  predict := predict_with m;
  randint := trainer_randint;
  choice := trainer_choice
|}.

(** The state of the notebook during training: the model, the array
    objects, the generator, and the names printed so far, each with the
    epoch that printed it. *)
Record training `{Trainer} : Type := Training {
  net : model;
  arrays : gmap loc tensor;
  seed : trng;
  printed : list (nat * list ascii)
}.

Section Training.
Context `{Trainer}.

(** One pass of [for epoch in range(101)]; [epoch % 10 > 0] is written
    [0 < epoch mod 10]. *)
Definition train_epoch (fuel : nat) (v : vocab) (X Y : tensor)
    (st : training) (epoch : nat) : outcome training :=
  if decide (0 < epoch `mod` 10) then
    match fit (net st) X Y (seed st) with
    | Ok (m, g) => Done (Training _ m (arrays st) g (printed st))
    | Raise e => Raised e
    end
  else
    match fit (net st) X Y (seed st) with
    | Ok (m, g) =>
        match @generate_name (backend_of m) fuel v
                (@World (backend_of m) (arrays st) g) with
        | Done (name, w) =>
            Done (Training _ m (@heap (backend_of m) w) (@gen (backend_of m) w)
                    (printed st ++ [(epoch, name)]))
        | Raised e => Raised e
        | OutOfFuel => OutOfFuel
        end
    | Raise e => Raised e
    end.

Fixpoint train_epochs (fuel : nat) (v : vocab) (X Y : tensor)
    (st : training) (epochs : list nat) : outcome training :=
  match epochs with
  | [] => Done st
  | epoch :: epochs' =>
      match train_epoch fuel v X Y st epoch with
      | Done st' => train_epochs fuel v X Y st' epochs'
      | Raised e => Raised e
      | OutOfFuel => OutOfFuel
      end
  end.

Definition train (fuel : nat) (v : vocab) (X Y : tensor) (st : training)
    : outcome training :=
  train_epochs fuel v X Y st (range 101).
End Training.

(** A trainer for running the loop on examples: the state of the model is
    the number of calls of [fit] so far, the model predicts the uniform
    distribution, the generator replays a tape. *)
Definition counting_trainer (n : nat) : Trainer := {|
  model := nat;
  trng := list nat;
  fit := fun m X Y g => Ok (S m, g);
  predict_with := fun m => @predict (tape_backend n);
  trainer_randint := @randint (tape_backend n);
  trainer_choice := @choice (tape_backend n)
|}.

(** A trainer whose model, however long it is trained, puts all the mass
    on the index [k]. *)
Definition certain_trainer (n k : nat) : Trainer := {|
  model := nat;
  trng := unit;
  fit := fun m X Y g => Ok (S m, g);
  predict_with := fun m => @predict (certain_backend n k);
  trainer_randint := @randint (certain_backend n k);
  trainer_choice := @choice (certain_backend n k)
|}.

(* ===================================================================== *)
(** * Properties of the vocabulary *)
(* ===================================================================== *)

Lemma rbind_Ok {A B} (m : result A) (f : A → result B) b :
  rbind m f = Ok b ↔ ∃ a, m = Ok a ∧ f a = Ok b.
Proof. destruct m; simpl; naive_solver. Qed.

Lemma of_option_Ok {A} e (o : option A) a : of_option e o = Ok a ↔ o = Some a.
Proof. destruct o; simpl; naive_solver. Qed.

Lemma elem_of_add_chars (i : str) (cs : gset ascii) c :
  c ∈ foldl (fun cs j => {[j]} ∪ cs) cs i ↔ c ∈ cs ∨ c ∈ i.
Proof.
  revert cs. induction i as [|j i IH]; intros cs; simpl.
  - rewrite elem_of_nil. tauto.
  - rewrite IH, elem_of_cons. set_solver.
Qed.

Lemma elem_of_char_set_from (species : list str) (cs : gset ascii) c :
  c ∈ foldl (fun cs i => foldl (fun cs j => {[j]} ∪ cs) cs i) cs species
  ↔ c ∈ cs ∨ ∃ i, i ∈ species ∧ c ∈ i.
Proof.
  revert cs. induction species as [|i species IH]; intros cs; simpl.
  - split; [tauto|]. intros [?|(i & Hi & _)]; [done|]. by apply elem_of_nil in Hi.
  - rewrite IH, elem_of_add_chars. split.
    + intros [[?|?]|(i' & ? & ?)]; [tauto| |]; right.
      * exists i. split; [left|done].
      * exists i'. split; [by right|done].
    + intros [?|(i' & Hi' & ?)]; [tauto|].
      apply elem_of_cons in Hi' as [->|?]; [tauto|]. right. eauto.
Qed.

Lemma elem_of_char_set_of (species : list str) c :
  c ∈ char_set_of species ↔ ∃ i, i ∈ species ∧ c ∈ i.
Proof.
  unfold char_set_of. rewrite elem_of_char_set_from. set_solver.
Qed.

Lemma char_list_perm species :
  char_list (build_vocab species) ≡ₚ elements (char_set_of species).
Proof. simpl. apply merge_sort_Permutation. Qed.

Lemma char_list_NoDup species : NoDup (char_list (build_vocab species)).
Proof. rewrite char_list_perm. apply NoDup_elements. Qed.

Lemma elem_of_char_list species c :
  c ∈ char_list (build_vocab species) ↔ ∃ i, i ∈ species ∧ c ∈ i.
Proof. rewrite char_list_perm, elem_of_elements. apply elem_of_char_set_of. Qed.

Lemma char_list_length species :
  length (char_list (build_vocab species)) = n_x (build_vocab species).
Proof. rewrite char_list_perm. reflexivity. Qed.

Lemma enumerate_snoc {A} (l : list A) x :
  enumerate (l ++ [x]) = enumerate l ++ [(length l, x)].
Proof.
  unfold enumerate. rewrite imap_app. simpl. do 3 f_equal. lia.
Qed.

(** The dict comprehension maps each character to the last index it has
    in the list. *)
Lemma build_char_map_snoc cl c :
  build_char_map (cl ++ [c]) = <[c := length cl]> (build_char_map cl).
Proof.
  unfold build_char_map. rewrite enumerate_snoc, foldl_app. reflexivity.
Qed.

Lemma build_char_map_lookup cl c k :
  NoDup cl → build_char_map cl !! c = Some k ↔ cl !! k = Some c.
Proof.
  induction cl as [|c' cl IH] using rev_ind; intros Hnd.
  - unfold build_char_map. simpl. rewrite lookup_empty. naive_solver.
  - apply NoDup_app in Hnd as (Hnd & Hnotin & _).
    rewrite build_char_map_snoc. destruct (decide (c = c')) as [->|Hne].
    + rewrite lookup_insert_eq. split.
      * intros [= <-]. by rewrite lookup_app_r, Nat.sub_diag by lia.
      * intros Hk. f_equal. destruct (decide (k < length cl)) as [Hlt|Hge].
        -- rewrite lookup_app_l in Hk by done.
           exfalso. apply (Hnotin c'); [|left].
           apply list_elem_of_lookup. eauto.
        -- apply lookup_lt_Some in Hk. rewrite length_app in Hk. simpl in Hk. lia.
    + rewrite lookup_insert_ne by done. rewrite IH by done. split.
      * intros Hk. rewrite lookup_app_l; [done|]. by eapply lookup_lt_Some.
      * intros Hk. destruct (decide (k < length cl)) as [Hlt|Hge].
        -- by rewrite lookup_app_l in Hk.
        -- rewrite lookup_app_r in Hk by lia.
           apply list_lookup_singleton_Some in Hk as [_ ?]. congruence.
Qed.

(** The two mappings are inverse to each other. *)
Lemma char2idx_idx2char species c k :
  char2idx (build_vocab species) c = Ok k ↔ idx2char (build_vocab species) k = Ok c.
Proof.
  unfold char2idx, idx2char. rewrite !of_option_Ok.
  apply build_char_map_lookup, char_list_NoDup.
Qed.

Lemma idx2char_lt species k c :
  idx2char (build_vocab species) k = Ok c → k < n_x (build_vocab species).
Proof.
  unfold idx2char. rewrite of_option_Ok. intros Hk.
  rewrite <- char_list_length. by eapply lookup_lt_Some.
Qed.

(** Every character of the corpus has an index, below [n_x]. *)
Lemma char2idx_corpus species i c :
  i ∈ species → c ∈ i →
  ∃ k, char2idx (build_vocab species) c = Ok k ∧ k < n_x (build_vocab species).
Proof.
  intros Hi Hc.
  assert (c ∈ char_list (build_vocab species)) as Hin
    by (apply elem_of_char_list; eauto).
  apply list_elem_of_lookup in Hin as [k Hk]. exists k.
  assert (idx2char (build_vocab species) k = Ok c) as Hic
    by (by apply of_option_Ok).
  split; [by apply char2idx_idx2char | by eapply idx2char_lt].
Qed.

(* ===================================================================== *)
(** * Properties of the encoder *)
(* ===================================================================== *)

Lemma for_each_app {A S} (body : S → A → result S) s l1 l2 :
  for_each body s (l1 ++ l2) = (s' ←r for_each body s l1; for_each body s' l2).
Proof.
  revert s. induction l1 as [|a l1 IH]; intros s; simpl; [done|].
  destruct (body s a); simpl; [apply IH | done].
Qed.

Lemma range_S (n : nat) : range (Z.of_nat (S n)) = range (Z.of_nat n) ++ [n].
Proof. unfold range. rewrite !Nat2Z.id. apply seq_S. Qed.

Lemma py_max_Ok_ge (l : list Z) m z : py_max l = Ok m → z ∈ l → (z ≤ m)%Z.
Proof.
  destruct l as [|z0 l]; simpl; [done|]. intros [= <-].
  assert (∀ l a, (a ≤ foldl Z.max a l)%Z) as Hacc.
  { clear. induction l as [|b l IH]; intros a; simpl; [lia|].
    etrans; [|apply IH]. lia. }
  assert (∀ l a, z ∈ l → (z ≤ foldl Z.max a l)%Z) as Hin.
  { clear -Hacc. induction l as [|b l IH]; intros a Hz; simpl.
    - by apply elem_of_nil in Hz.
    - apply elem_of_cons in Hz as [->|Hz]; [|by apply IH].
      etrans; [|apply Hacc]. lia. }
  intros [->|Hz]%elem_of_cons; [apply Hacc | by apply Hin].
Qed.

Lemma py_max_nonempty (l : list Z) : l ≠ [] → ∃ m, py_max l = Ok m.
Proof. destruct l; [done|]. simpl. eauto. Qed.

Lemma padded_snoc n maxlen ks k :
  length ks < maxlen →
  <[length ks := one_hot n k]> (padded n maxlen ks) = padded n maxlen (ks ++ [k]).
Proof.
  intros Hlt. unfold padded.
  rewrite insert_app_r_alt by (rewrite length_fmap; lia).
  rewrite length_fmap, Nat.sub_diag, fmap_app, length_app. simpl.
  destruct (maxlen - length ks) as [|m] eqn:Hm; [lia|]. simpl.
  rewrite <- app_assoc. simpl. do 3 f_equal. lia.
Qed.

Lemma padded_lookup_hot n maxlen ks t k :
  ks !! t = Some k → padded n maxlen ks !! t = Some (one_hot n k).
Proof.
  intros Hk. unfold padded. rewrite lookup_app_l.
  - by rewrite list_lookup_fmap, Hk.
  - rewrite length_fmap. by eapply lookup_lt_Some.
Qed.

Lemma padded_lookup_zero n maxlen ks t :
  length ks ≤ t < maxlen → padded n maxlen ks !! t = Some (replicate n 0%Z).
Proof.
  intros Ht. unfold padded. rewrite lookup_app_r by (rewrite length_fmap; lia).
  rewrite length_fmap. apply lookup_replicate_2. lia.
Qed.

Lemma padded_length n maxlen ks :
  length ks ≤ maxlen → length (padded n maxlen ks) = maxlen.
Proof.
  intros Hle. unfold padded. rewrite length_app, length_fmap, length_replicate. lia.
Qed.

Lemma set3_padded (A : tensor) n maxlen i ks k :
  A !! i = Some (padded n maxlen ks) → length ks < maxlen → k < n →
  set3 A i (length ks) k 1%Z = Ok (<[i := padded n maxlen (ks ++ [k])]> A).
Proof.
  intros HA Hlt Hk. unfold set3. rewrite HA. simpl.
  rewrite padded_lookup_zero by lia. simpl.
  rewrite length_replicate. rewrite decide_True by done.
  by rewrite <- padded_snoc by done.
Qed.

Lemma char2idx_idx_of v c k : char2idx v c = Ok k → idx_of v c = k.
Proof. unfold char2idx, idx_of. rewrite of_option_Ok. by intros ->. Qed.

Lemma in_vocab_lookup v chars t c :
  in_vocab v chars → chars !! t = Some c →
  char2idx v c = Ok (idx_of v c) ∧ idx_of v c < n_x v.
Proof.
  intros Hv Hc. eapply Forall_lookup_1 in Hv as (k & Hk & Hlt); [|done].
  by rewrite (char2idx_idx_of _ _ _ Hk).
Qed.

(** The inner loop, after its first [m] steps. *)
Lemma encode_steps v i chars maxlen (X Y : tensor) m :
  in_vocab v chars →
  S m ≤ length chars → m ≤ maxlen →
  X !! i = Some (padded (n_x v) maxlen []) →
  Y !! i = Some (padded (n_x v) maxlen []) →
  for_each (encode_step v i chars) (X, Y) (range (Z.of_nat m))
  = Ok (<[i := padded (n_x v) maxlen (idx_of v <$> take m chars)]> X,
        <[i := padded (n_x v) maxlen (idx_of v <$> take m (target_chars chars))]> Y).
Proof.
  intros Hv Hlen Hmax HX HY. induction m as [|m IH].
  - simpl. by rewrite !list_insert_id.
  - rewrite range_S, for_each_app, IH by lia. simpl.
    destruct (lookup_lt_is_Some_2 chars m) as [c Hc]; [lia|].
    destruct (lookup_lt_is_Some_2 chars (m + 1)) as [c' Hc']; [lia|].
    destruct (in_vocab_lookup _ _ _ _ Hv Hc) as [Hk Hklt].
    destruct (in_vocab_lookup _ _ _ _ Hv Hc') as [Hk' Hklt'].
    assert (target_chars chars !! m = Some c') as Hd.
    { unfold target_chars. rewrite lookup_drop. by rewrite Nat.add_comm. }
    unfold encode_step, char_at. simpl. rewrite Hc, Hc'. simpl.
    rewrite Hk, Hk'. simpl.
    assert (length (idx_of v <$> take m chars) = m) as Hl1.
    { rewrite length_fmap, length_take_le; lia. }
    assert (length (idx_of v <$> take m (target_chars chars)) = m) as Hl2.
    { rewrite length_fmap, length_take_le; [done|].
      unfold target_chars. rewrite length_drop. lia. }
    pose proof (set3_padded (<[i := padded (n_x v) maxlen (idx_of v <$> take m chars)]> X)
                  (n_x v) maxlen i (idx_of v <$> take m chars) (idx_of v c)) as HsX.
    rewrite Hl1 in HsX. rewrite HsX; [|apply list_lookup_insert_eq; by eapply lookup_lt_Some|lia|done].
    simpl.
    pose proof (set3_padded (<[i := padded (n_x v) maxlen (idx_of v <$> take m (target_chars chars))]> Y)
                  (n_x v) maxlen i (idx_of v <$> take m (target_chars chars)) (idx_of v c')) as HsY.
    rewrite Hl2 in HsY. rewrite HsY; [|apply list_lookup_insert_eq; by eapply lookup_lt_Some|lia|done].
    simpl. rewrite !list_insert_insert_eq.
    rewrite (take_S_r _ _ _ Hc), (take_S_r _ _ _ Hd), !fmap_app. reflexivity.
Qed.

(** The whole inner loop writes the two rows of sample [i]. *)
Lemma encode_name_rows v i chars maxlen (X Y : tensor) :
  in_vocab v chars → length chars - 1 ≤ maxlen →
  X !! i = Some (padded (n_x v) maxlen []) →
  Y !! i = Some (padded (n_x v) maxlen []) →
  encode_name v (X, Y) (i, chars)
  = Ok (<[i := X_row v maxlen chars]> X, <[i := Y_row v maxlen chars]> Y).
Proof.
  intros Hv Hmax HX HY. unfold encode_name. simpl.
  destruct chars as [|c chars].
  - simpl. unfold X_row, Y_row, input_chars, target_chars. simpl.
    by rewrite !list_insert_id.
  - replace (Z.of_nat (length (c :: chars)) - 1)%Z
      with (Z.of_nat (length (c :: chars) - 1)) by (simpl; lia).
    rewrite (encode_steps v i (c :: chars) maxlen) by (done || simpl; lia).
    reflexivity.
Qed.

(** The outer loop on a corpus [l] followed by [r] samples not yet reached. *)
Lemma encode_rows v maxlen (l : list str) r :
  Forall (in_vocab v) l →
  Forall (fun chars => length chars - 1 ≤ maxlen) l →
  for_each (encode_name v)
    (zeros (length l + r) maxlen (n_x v), zeros (length l + r) maxlen (n_x v))
    (enumerate l)
  = Ok ((X_row v maxlen <$> l) ++ replicate r (padded (n_x v) maxlen []),
        (Y_row v maxlen <$> l) ++ replicate r (padded (n_x v) maxlen [])).
Proof.
  revert r. induction l as [|chars l IH] using rev_ind; intros r Hv Hmax.
  - simpl. unfold zeros, padded. simpl. by rewrite Nat.sub_0_r.
  - apply Forall_app in Hv as [Hv Hc]. apply Forall_app in Hmax as [Hmax Hm].
    apply Forall_inv in Hc. apply Forall_inv in Hm.
    rewrite enumerate_snoc, for_each_app.
    replace (length (l ++ [chars]) + r) with (length l + S r)
      by (rewrite length_app; simpl; lia).
    rewrite IH by done. simpl.
    assert (∀ (f : str → list (list Z)),
      ((f <$> l) ++ padded (n_x v) maxlen [] :: replicate r (padded (n_x v) maxlen []))
        !! length l = Some (padded (n_x v) maxlen [])) as Hlook.
    { intros f. rewrite lookup_app_r by (rewrite length_fmap; lia).
      by rewrite length_fmap, Nat.sub_diag. }
    rewrite (encode_name_rows v (length l) chars maxlen)
      by (done || apply Hlook).
    assert (∀ (f : str → list (list Z)),
      <[length l := f chars]>
        ((f <$> l) ++ padded (n_x v) maxlen [] :: replicate r (padded (n_x v) maxlen []))
      = (f <$> l ++ [chars]) ++ replicate r (padded (n_x v) maxlen [])) as Hins.
    { intros f. rewrite insert_app_r_alt by (rewrite length_fmap; lia).
      rewrite length_fmap, Nat.sub_diag, fmap_app. simpl.
      by rewrite <- app_assoc. }
    by rewrite !Hins.
Qed.

(** What the encoder returns, for a vocabulary that covers the corpus. *)
Lemma encode_covered v (species : list str) m :
  Forall (in_vocab v) species →
  maxlen_of species = Ok m → (0 ≤ m)%Z →
  encode v species
  = Ok (X_row v (Z.to_nat m) <$> species, Y_row v (Z.to_nat m) <$> species).
Proof.
  intros Hv Hm Hpos. unfold encode. rewrite Hm. simpl.
  unfold np_zeros. rewrite decide_False by lia. simpl.
  pose proof (encode_rows v (Z.to_nat m) species 0) as Hrows.
  rewrite Nat.add_0_r in Hrows. rewrite Hrows; [by rewrite !app_nil_r|done|].
  apply Forall_forall. intros chars Hin.
  assert (Z.of_nat (length chars) - 1 ≤ m)%Z; [|lia].
  eapply py_max_Ok_ge; [exact Hm|].
  apply list_elem_of_fmap. eauto.
Qed.

Lemma corpus_in_vocab species : Forall (in_vocab (build_vocab species)) species.
Proof.
  apply Forall_forall. intros chars Hin. apply Forall_forall. intros c Hc.
  by eapply char2idx_corpus.
Qed.

Lemma maxlen_of_nonempty (species : list str) :
  species ≠ [] → ∃ m, maxlen_of species = Ok m ∧ (-1 ≤ m)%Z.
Proof.
  intros Hne. destruct species as [|chars species]; [done|].
  destruct (py_max_nonempty ((fun i : str => (Z.of_nat (length i) - 1)%Z)
                               <$> (chars :: species))) as [m Hm]; [done|].
  exists m. split; [done|].
  assert (Z.of_nat (length chars) - 1 ≤ m)%Z; [|lia].
  eapply py_max_Ok_ge; [exact Hm|]. rewrite fmap_cons. left.
Qed.

Lemma maxlen_of_has_name (species : list str) chars m :
  maxlen_of species = Ok m → chars ∈ species → (Z.of_nat (length chars) - 1 ≤ m)%Z.
Proof.
  intros Hm Hin. eapply py_max_Ok_ge; [exact Hm|]. apply list_elem_of_fmap. eauto.
Qed.

Lemma at2_fmap_row (f : str → list (list Z)) (species : list str) i chars t :
  species !! i = Some chars → at2 (f <$> species) i t = f chars !! t.
Proof. intros Hi. unfold at2. by rewrite list_lookup_fmap, Hi. Qed.

(** ** One-hot vectors *)

Lemma one_hot_length n k : length (one_hot n k) = n.
Proof. unfold one_hot. by rewrite length_insert, length_replicate. Qed.

(** Exactly one position is 1, all others are 0. *)
Lemma one_hot_lookup n k j :
  k < n → j < n →
  one_hot n k !! j = Some (if decide (j = k) then 1%Z else 0%Z).
Proof.
  intros Hk Hj. unfold one_hot. destruct (decide (j = k)) as [->|Hne].
  - apply list_lookup_insert_eq. by rewrite length_replicate.
  - rewrite list_lookup_insert_ne by done. by apply lookup_replicate_2.
Qed.

Lemma onehot_index_one_hot n k : k < n → onehot_index (one_hot n k) = Some k.
Proof.
  intros Hk. unfold onehot_index.
  assert (list_find (fun z : Z => z ≠ 0%Z) (one_hot n k) = Some (k, 1%Z)) as ->.
  { apply list_find_Some. split_and!.
    - rewrite one_hot_lookup by done. by rewrite decide_True.
    - done.
    - intros j y Hy Hlt. rewrite one_hot_lookup in Hy by lia.
      rewrite decide_False in Hy by lia. injection Hy as <-. tauto. }
  rewrite one_hot_length. by rewrite decide_True.
Qed.

Lemma onehot_index_zero n : onehot_index (replicate n 0%Z) = None.
Proof.
  unfold onehot_index.
  assert (list_find (fun z : Z => z ≠ 0%Z) (replicate n 0%Z) = None) as ->; [|done].
  apply list_find_None, Forall_forall.
  intros z [-> _]%elem_of_replicate. tauto.
Qed.

Lemma one_hot_ne_zero n k : k < n → one_hot n k ≠ replicate n 0%Z.
Proof.
  intros Hk Heq. pose proof (onehot_index_one_hot n k Hk) as Hi.
  rewrite Heq, onehot_index_zero in Hi. done.
Qed.

(** ** Decoding a row *)

Lemma decode_row_padded v n maxlen ks cs :
  Forall2 (fun k c => idx2char v k = Ok c ∧ k < n) ks cs →
  decode_row v (padded n maxlen ks) = Ok cs.
Proof.
  intros Hks. unfold decode_row, padded. rewrite for_each_app.
  assert (∀ out,
    for_each (fun out vec =>
                match onehot_index vec with
                | Some k => c ←r idx2char v k; Ok (out ++ [c])
                | None => Ok out
                end) out (one_hot n <$> ks) = Ok (out ++ cs)) as Hhot.
  { induction Hks as [|k c ks cs [Hc Hk] _ IH]; intros out; simpl.
    - by rewrite app_nil_r.
    - rewrite onehot_index_one_hot by done. rewrite Hc. simpl.
      rewrite IH. by rewrite <- app_assoc. }
  rewrite Hhot. simpl.
  generalize (maxlen - length ks). intros r. induction r as [|r IH]; simpl; [done|].
  by rewrite onehot_index_zero.
Qed.

(** ** The encoder on a corpus *)

(** The encoder returns, and returns these two arrays, as soon as one name
    of the corpus is not the empty string. *)
Lemma encode_corpus (species : list str) :
  Exists (fun chars => chars ≠ []) species →
  ∃ maxlen : nat,
    maxlen_of species = Ok (Z.of_nat maxlen) ∧
    encode (build_vocab species) species
    = Ok (X_row (build_vocab species) maxlen <$> species,
          Y_row (build_vocab species) maxlen <$> species).
Proof.
  intros (chars & Hin & Hne)%Exists_exists.
  destruct (maxlen_of_nonempty species) as (m & Hm & _).
  { intros ->. by apply elem_of_nil in Hin. }
  pose proof (maxlen_of_has_name _ _ _ Hm Hin) as Hle.
  assert (0 < length chars) by (destruct chars; [done|simpl; lia]).
  exists (Z.to_nat m). rewrite Z2Nat.id by lia. split; [done|].
  apply encode_covered; [apply corpus_in_vocab|done|lia].
Qed.

Lemma X_row_hot v maxlen chars t c :
  t + 1 < length chars → chars !! t = Some c →
  X_row v maxlen chars !! t = Some (one_hot (n_x v) (idx_of v c)).
Proof.
  intros Ht Hc. unfold X_row, input_chars. apply padded_lookup_hot.
  rewrite list_lookup_fmap, lookup_take_lt by lia. by rewrite Hc.
Qed.

Lemma Y_row_hot v maxlen chars t c' :
  t + 1 < length chars → chars !! (t + 1) = Some c' →
  Y_row v maxlen chars !! t = Some (one_hot (n_x v) (idx_of v c')).
Proof.
  intros Ht Hc. unfold Y_row, target_chars. apply padded_lookup_hot.
  rewrite list_lookup_fmap, lookup_take_lt, lookup_drop by lia.
  by rewrite Nat.add_comm, Hc.
Qed.

Lemma X_row_zero v maxlen chars t :
  length chars - 1 ≤ t < maxlen →
  X_row v maxlen chars !! t = Some (replicate (n_x v) 0%Z).
Proof.
  intros Ht. unfold X_row, input_chars. apply padded_lookup_zero.
  rewrite length_fmap, length_take. lia.
Qed.

Lemma Y_row_zero v maxlen chars t :
  length chars - 1 ≤ t < maxlen →
  Y_row v maxlen chars !! t = Some (replicate (n_x v) 0%Z).
Proof.
  intros Ht. unfold Y_row, target_chars. apply padded_lookup_zero.
  rewrite length_fmap, length_take, length_drop. lia.
Qed.

(** C1. Encoder contract: for a corpus of names of which one at least is not
    empty, the encoder returns arrays [X] and [Y] such that, for every
    sample [i] and every step [t < len(name_i) - 1], [X[i,t,:]] is the
    one-hot vector of the index of character [t] of the name and [Y[i,t,:]]
    the one-hot vector of the index of character [t + 1]; and for every
    step [t] with [len(name_i) - 1 <= t < maxlen] both are all-zero. *)
Theorem encoder_contract (species : list str) (i : nat) (name : str) :
  Exists (fun chars => chars ≠ []) species →
  species !! i = Some name →
  let v := build_vocab species in
  ∃ (X Y : tensor) (maxlen : Z),
    maxlen_of species = Ok maxlen ∧
    encode v species = Ok (X, Y) ∧
    (∀ t : nat, (Z.of_nat t < Z.of_nat (length name) - 1)%Z →
       ∃ c c' k k',
         name !! t = Some c ∧ name !! (t + 1) = Some c' ∧
         char2idx v c = Ok k ∧ char2idx v c' = Ok k' ∧
         k < n_x v ∧ k' < n_x v ∧
         at2 X i t = Some (one_hot (n_x v) k) ∧
         at2 Y i t = Some (one_hot (n_x v) k')) ∧
    (∀ t : nat, (Z.of_nat (length name) - 1 ≤ Z.of_nat t < maxlen)%Z →
       at2 X i t = Some (replicate (n_x v) 0%Z) ∧
       at2 Y i t = Some (replicate (n_x v) 0%Z)).
Proof.
  intros Hex Hi v. destruct (encode_corpus species Hex) as (maxlen & Hm & Henc).
  exists (X_row v maxlen <$> species), (Y_row v maxlen <$> species), (Z.of_nat maxlen).
  split_and!; [done|done| |].
  - intros t Ht.
    destruct (lookup_lt_is_Some_2 name t) as [c Hc]; [lia|].
    destruct (lookup_lt_is_Some_2 name (t + 1)) as [c' Hc']; [lia|].
    assert (in_vocab v name) as Hv.
    { eapply Forall_lookup_1; [apply corpus_in_vocab|done]. }
    destruct (in_vocab_lookup _ _ _ _ Hv Hc) as [Hk Hlt].
    destruct (in_vocab_lookup _ _ _ _ Hv Hc') as [Hk' Hlt'].
    exists c, c', (idx_of v c), (idx_of v c'). split_and!; try done.
    + rewrite (at2_fmap_row _ _ _ _ _ Hi). apply X_row_hot; [lia|done].
    + rewrite (at2_fmap_row _ _ _ _ _ Hi). apply Y_row_hot; [lia|done].
  - intros t Ht. rewrite !(at2_fmap_row _ _ _ _ _ Hi). split.
    + apply X_row_zero. lia.
    + apply Y_row_zero. lia.
Qed.

Lemma encoder_contract_witness :
  ∃ (X Y : tensor) (maxlen : Z),
    maxlen_of [py "ab@"; py "abcd@"] = Ok maxlen ∧
    encode (build_vocab [py "ab@"; py "abcd@"]) [py "ab@"; py "abcd@"] = Ok (X, Y) ∧
    (∀ t : nat, (Z.of_nat t < Z.of_nat (length (py "ab@")) - 1)%Z →
       ∃ c c' k k',
         py "ab@" !! t = Some c ∧ py "ab@" !! (t + 1) = Some c' ∧
         char2idx (build_vocab [py "ab@"; py "abcd@"]) c = Ok k ∧
         char2idx (build_vocab [py "ab@"; py "abcd@"]) c' = Ok k' ∧
         k < n_x (build_vocab [py "ab@"; py "abcd@"]) ∧
         k' < n_x (build_vocab [py "ab@"; py "abcd@"]) ∧
         at2 X 0 t = Some (one_hot (n_x (build_vocab [py "ab@"; py "abcd@"])) k) ∧
         at2 Y 0 t = Some (one_hot (n_x (build_vocab [py "ab@"; py "abcd@"])) k')) ∧
    (∀ t : nat, (Z.of_nat (length (py "ab@")) - 1 ≤ Z.of_nat t < maxlen)%Z →
       at2 X 0 t = Some (replicate (n_x (build_vocab [py "ab@"; py "abcd@"])) 0%Z) ∧
       at2 Y 0 t = Some (replicate (n_x (build_vocab [py "ab@"; py "abcd@"])) 0%Z)).
Proof.
  apply (encoder_contract [py "ab@"; py "abcd@"] 0 (py "ab@")).
  - apply Exists_cons_hd. discriminate.
  - reflexivity.
Defined.

(** The example of the specification: the corpus ["ecoli@"] gives arrays of
    shape (1, 5, 6), with [X[0,0]] the one-hot vector of 'e', [Y[0,0]] that
    of 'c', [X[0,4]] that of 'i' and [Y[0,4]] that of '@'. *)
Example encode_ecoli :
  let v := build_vocab [py "ecoli@"] in
  char_list v = py "@ceilo" ∧
  ∃ X Y, encode v [py "ecoli@"] = Ok (X, Y) ∧
    length X = 1 ∧ (length <$> X) = [5] ∧
    Forall (Forall (fun vec => length vec = 6)) X ∧
    at2 X 0 0 = Some (one_hot 6 2) ∧ idx2char v 2 = Ok "e"%char ∧
    at2 Y 0 0 = Some (one_hot 6 1) ∧ idx2char v 1 = Ok "c"%char ∧
    at2 X 0 4 = Some (one_hot 6 3) ∧ idx2char v 3 = Ok "i"%char ∧
    at2 Y 0 4 = Some (one_hot 6 0) ∧ idx2char v 0 = Ok "@"%char.
Proof.
  split; [by vm_compute|]. eexists _, _. split; [by vm_compute|].
  split_and!; try by vm_compute.
  repeat constructor.
Qed.

(** C9, as the cell behaves: on a corpus of which one name at least is not
    empty the encoder raises no exception, and every name of length at most
    one has an all-zero row in [X] and in [Y]. *)
Theorem encoder_short_names_zero (species : list str) :
  Exists (fun chars => chars ≠ []) species →
  let v := build_vocab species in
  ∃ (X Y : tensor) (maxlen : nat),
    maxlen_of species = Ok (Z.of_nat maxlen) ∧
    encode v species = Ok (X, Y) ∧
    ∀ i name, species !! i = Some name → length name ≤ 1 →
      X !! i = Some (replicate maxlen (replicate (n_x v) 0%Z)) ∧
      Y !! i = Some (replicate maxlen (replicate (n_x v) 0%Z)).
Proof.
  intros Hex v. destruct (encode_corpus species Hex) as (maxlen & Hm & Henc).
  exists (X_row v maxlen <$> species), (Y_row v maxlen <$> species), maxlen.
  split_and!; [done|done|].
  intros i name Hi Hlen. rewrite !list_lookup_fmap, Hi. simpl.
  unfold X_row, Y_row, input_chars, target_chars, padded.
  replace (length name - 1) with 0 by lia. rewrite !take_0. simpl.
  by rewrite Nat.sub_0_r.
Qed.

Lemma encoder_short_names_zero_witness :
  ∃ (X Y : tensor) (maxlen : nat),
    maxlen_of [py "@"; py "ab@"] = Ok (Z.of_nat maxlen) ∧
    encode (build_vocab [py "@"; py "ab@"]) [py "@"; py "ab@"] = Ok (X, Y) ∧
    ∀ i name, [py "@"; py "ab@"] !! i = Some name → length name ≤ 1 →
      X !! i = Some (replicate maxlen (replicate (n_x (build_vocab [py "@"; py "ab@"])) 0%Z)) ∧
      Y !! i = Some (replicate maxlen (replicate (n_x (build_vocab [py "@"; py "ab@"])) 0%Z)).
Proof.
  apply (encoder_short_names_zero [py "@"; py "ab@"]).
  apply Exists_cons_hd. discriminate.
Defined.

(** C9, as stated, fails: on the empty corpus [max] is applied to an empty
    list and raises [ValueError]; so does [np.zeros], on a negative
    dimension, for a corpus of empty strings only. *)
Lemma encoder_raises_on_empty_corpus :
  maxlen_of [] = Raise ValueError ∧
  encode (build_vocab []) [] = Raise ValueError ∧
  encode (build_vocab [[]]) [[]] = Raise ValueError.
Proof. by vm_compute. Qed.

(** C2, as the cell behaves: for every sample [i] and every step [t] with
    [t + 1 < len(name_i) - 1], the one-hot index of [Y[i,t,:]] is the
    one-hot index of [X[i,t+1,:]], namely the index of character [t + 1]. *)
Theorem shift_invariant (species : list str) (i : nat) (name : str) (t : nat) :
  Exists (fun chars => chars ≠ []) species →
  species !! i = Some name →
  (Z.of_nat t + 1 < Z.of_nat (length name) - 1)%Z →
  let v := build_vocab species in
  ∃ (X Y : tensor) c k,
    encode v species = Ok (X, Y) ∧
    name !! (t + 1) = Some c ∧ char2idx v c = Ok k ∧
    hot_at Y i t = Some k ∧ hot_at X i (t + 1) = Some k.
Proof.
  intros Hex Hi Ht v. destruct (encode_corpus species Hex) as (maxlen & Hm & Henc).
  destruct (lookup_lt_is_Some_2 name (t + 1)) as [c Hc]; [lia|].
  assert (in_vocab v name) as Hv.
  { eapply Forall_lookup_1; [apply corpus_in_vocab|done]. }
  destruct (in_vocab_lookup _ _ _ _ Hv Hc) as [Hk Hlt].
  exists (X_row v maxlen <$> species), (Y_row v maxlen <$> species), c, (idx_of v c).
  split_and!; [done|done|done| |]; unfold hot_at;
    rewrite (at2_fmap_row _ _ _ _ _ Hi).
  - rewrite (Y_row_hot v maxlen name t c) by (lia || done). simpl.
    by apply onehot_index_one_hot.
  - rewrite (X_row_hot v maxlen name (t + 1) c) by (lia || done). simpl.
    by apply onehot_index_one_hot.
Qed.

Lemma shift_invariant_witness :
  ∃ (X Y : tensor) c k,
    encode (build_vocab [py "ecoli@"]) [py "ecoli@"] = Ok (X, Y) ∧
    py "ecoli@" !! (3 + 1) = Some c ∧
    char2idx (build_vocab [py "ecoli@"]) c = Ok k ∧
    hot_at Y 0 3 = Some k ∧ hot_at X 0 (3 + 1) = Some k.
Proof.
  apply (shift_invariant [py "ecoli@"] 0 (py "ecoli@") 3).
  - apply Exists_cons_hd. discriminate.
  - reflexivity.
  - simpl. lia.
Defined.

(** C2, as stated, fails at the last valid step [t = len(name_i) - 2]:
    there [Y[i,t,:]] is the one-hot vector of the last character, while
    [X[i,t+1,:]] is a padding step, all-zero (first corpus below), or does
    not exist, [t + 1] being [maxlen] (second corpus). *)
Lemma shift_fails_at_last_step :
  (∃ X Y, encode (build_vocab [py "a@"; py "abc@"]) [py "a@"; py "abc@"] = Ok (X, Y) ∧
     [py "a@"; py "abc@"] !! 0 = Some (py "a@") ∧
     (Z.of_nat 0 < Z.of_nat (length (py "a@")) - 1)%Z ∧
     hot_at Y 0 0 = Some 0 ∧
     at2 X 0 (0 + 1) = Some [0; 0; 0; 0]%Z ∧ hot_at X 0 (0 + 1) = None ∧
     hot_at Y 0 0 ≠ hot_at X 0 (0 + 1)) ∧
  (∃ X Y, encode (build_vocab [py "ecoli@"]) [py "ecoli@"] = Ok (X, Y) ∧
     (Z.of_nat 4 < Z.of_nat (length (py "ecoli@")) - 1)%Z ∧
     hot_at Y 0 4 = Some 0 ∧
     at2 X 0 (4 + 1) = None ∧
     hot_at Y 0 4 ≠ hot_at X 0 (4 + 1)).
Proof.
  split.
  - eexists _, _. split; [by vm_compute|]. split_and!; by vm_compute.
  - eexists _, _. split; [by vm_compute|]. split_and!; by vm_compute.
Qed.

(** C3, as the cell behaves: decoding the input row of a name gives the
    name without its last character; for a name record, which ends in the
    terminator, that is the name before the terminator. *)
Theorem decode_input_row (species : list str) (i : nat) (name : str) :
  Exists (fun chars => chars ≠ []) species →
  species !! i = Some name →
  let v := build_vocab species in
  ∃ (X Y : tensor) row,
    encode v species = Ok (X, Y) ∧ X !! i = Some row ∧
    decode_row v row = Ok (take (length name - 1) name) ∧
    ∀ raw, name = raw ++ [terminator] → decode_row v row = Ok raw.
Proof.
  intros Hex Hi v. destruct (encode_corpus species Hex) as (maxlen & Hm & Henc).
  exists (X_row v maxlen <$> species), (Y_row v maxlen <$> species),
    (X_row v maxlen name).
  assert (decode_row v (X_row v maxlen name) = Ok (take (length name - 1) name)) as Hdec.
  { unfold X_row, input_chars. apply decode_row_padded.
    apply Forall2_fmap_l, Forall2_same_length_lookup. split; [done|].
    intros j c c' Hc Hc'. assert (c' = c) as -> by congruence.
    apply lookup_take_Some in Hc as [Hc _].
    assert (in_vocab v name) as Hv.
    { eapply Forall_lookup_1; [apply corpus_in_vocab|done]. }
    destruct (in_vocab_lookup _ _ _ _ Hv Hc) as [Hk Hlt].
    split; [by apply char2idx_idx2char | done]. }
  split_and!; [done|by rewrite list_lookup_fmap, Hi|done|].
  intros raw ->. rewrite Hdec. f_equal.
  rewrite length_app. simpl.
  replace (length raw + 1 - 1) with (length raw) by lia.
  by rewrite take_app_length.
Qed.

Lemma decode_input_row_witness :
  ∃ (X Y : tensor) row,
    encode (build_vocab [py "ecoli@"]) [py "ecoli@"] = Ok (X, Y) ∧
    X !! 0 = Some row ∧
    decode_row (build_vocab [py "ecoli@"]) row
    = Ok (take (length (py "ecoli@") - 1) (py "ecoli@")) ∧
    ∀ raw, py "ecoli@" = raw ++ [terminator] →
           decode_row (build_vocab [py "ecoli@"]) row = Ok raw.
Proof.
  apply (decode_input_row [py "ecoli@"] 0 (py "ecoli@")).
  - apply Exists_cons_hd. discriminate.
  - reflexivity.
Defined.

(** C3, as stated, fails: the input row of "ecoli@" decodes to "ecoli",
    which is not the name in the corpus. *)
Lemma decode_drops_last_character :
  ∃ X Y row,
    encode (build_vocab [py "ecoli@"]) [py "ecoli@"] = Ok (X, Y) ∧
    X !! 0 = Some row ∧
    decode_row (build_vocab [py "ecoli@"]) row = Ok (py "ecoli") ∧
    decode_row (build_vocab [py "ecoli@"]) row ≠ Ok (py "ecoli@").
Proof.
  eexists _, _, _. split; [by vm_compute|]. split; [by vm_compute|].
  split; by vm_compute.
Qed.

(* ===================================================================== *)
(** * Properties of the sampling loop *)
(* ===================================================================== *)

Section SamplerFacts.
Context `{Backend}.

Lemma bind_Done {A B} (m : M A) (f : A → M B) w b w' :
  bind m f w = Done (b, w') ↔ ∃ a w1, m w = Done (a, w1) ∧ f a w1 = Done (b, w').
Proof. unfold bind. destruct (m w) as [[a w1]| |]; naive_solver. Qed.

Ltac run_cases :=
  unfold bind, load, lift, with_rng, ret, alloc, store, diverge in *;
  repeat case_match; simplify_eq; try done.

Lemma lift_Done {A} (r : result A) w a w' :
  lift r w = Done (a, w') ↔ r = Ok a ∧ w' = w.
Proof. unfold lift. destruct r; naive_solver. Qed.

Lemma load_Done l w a w' :
  load l w = Done (a, w') ↔ a = heap w !!! l ∧ w' = w.
Proof. unfold load. naive_solver. Qed.

Lemma store_Done l a w u w' :
  store l a w = Done (u, w') ↔ w' = World _ (<[l := a]> (heap w)) (gen w).
Proof. unfold store. destruct u. naive_solver. Qed.

Lemma sample_char_fuel v x w : sample_char v x w ≠ OutOfFuel.
Proof. unfold sample_char, predict_last, np_choice. run_cases. Qed.

Lemma extend_fuel v x idx w : extend v x idx w ≠ OutOfFuel.
Proof.
  unfold extend, np_zeros3, np_set_last_axis, np_concatenate1. run_cases.
Qed.

(** One iteration of the loop. *)
Lemma sample_loop_S fuel v x generated w :
  sample_loop (S fuel) v x generated w
  = match sample_char v x w with
    | Done (ic, w1) =>
        if decide (ic.2 = terminator) then Done ((x, generated), w1)
        else match extend v x ic.1 w1 with
             | Done (x1, w2) => sample_loop fuel v x1 (generated ++ [ic.2]) w2
             | Raised e => Raised e
             | OutOfFuel => OutOfFuel
             end
    | Raised e => Raised e
    | OutOfFuel => OutOfFuel
    end.
Proof.
  simpl. unfold bind at 1. destruct (sample_char v x w) as [[ic w1]| |]; [|done..].
  destruct (decide (ic.2 = terminator)); [done|].
  unfold bind. by destruct (extend v x ic.1 w1) as [[x1 w2]| |].
Qed.

(** The loop returns exactly when a run that ends by sampling the
    terminator fits in the fuel; what it returns is that run's result. *)
Lemma sample_loop_Done fuel v x generated w x' generated' w' :
  sample_loop fuel v x generated w = Done ((x', generated'), w')
  ↔ ∃ draws, sampled_run v x w draws x' w' ∧
             generated' = generated ++ draws.*2 ∧ length draws < fuel.
Proof.
  split.
  - revert x generated w. induction fuel as [|fuel IH]; intros x generated w; [done|].
    rewrite sample_loop_S.
    destruct (sample_char v x w) as [[[idx char] w1]| |] eqn:Hs; [|done..].
    cbn [fst snd]. destruct (decide (char = terminator)) as [->|Hne].
    + intros [= -> -> ->]. exists []. split_and!.
      * by eapply run_stop.
      * by rewrite app_nil_r.
      * simpl. lia.
    + destruct (extend v x idx w1) as [[x1 w2]| |] eqn:He; [|done..].
      intros (draws & Hrun & -> & Hlen)%IH.
      exists ((idx, char) :: draws). split_and!.
      * by eapply run_more.
      * by rewrite <- app_assoc.
      * simpl. lia.
  - intros (draws & Hrun & -> & Hlen). revert fuel generated Hlen.
    induction Hrun as [x w idx w' Hs|x w idx char w1 x1 w2 draws x' w' Hs Hne He _ IH];
      intros fuel generated Hlen.
    + destruct fuel as [|fuel]; [simpl in Hlen; lia|].
      rewrite sample_loop_S, Hs. cbn [fst snd]. rewrite decide_True by done.
      by rewrite app_nil_r.
    + destruct fuel as [|fuel]; [simpl in Hlen; lia|].
      rewrite sample_loop_S, Hs. cbn [fst snd]. rewrite decide_False by done.
      rewrite He. rewrite IH by (simpl in Hlen; lia).
      by rewrite <- app_assoc.
Qed.

(** The loop uses up its fuel exactly when that many iterations sample
    no terminator (and raise no exception). *)
Lemma sample_loop_OutOfFuel fuel v x generated w :
  sample_loop fuel v x generated w = OutOfFuel ↔ still_running v fuel x w.
Proof.
  split.
  - revert x generated w. induction fuel as [|fuel IH]; intros x generated w.
    + intros _. constructor.
    + rewrite sample_loop_S.
      destruct (sample_char v x w) as [[[idx char] w1]| |] eqn:Hs;
        [|done|by destruct (sample_char_fuel v x w)].
      cbn [fst snd]. destruct (decide (char = terminator)) as [->|Hne]; [done|].
      destruct (extend v x idx w1) as [[x1 w2]| |] eqn:He;
        [|done|by destruct (extend_fuel v x idx w1)].
      intros Hrest%IH. by eapply running_S.
  - intros Hrun. revert generated.
    induction Hrun as [x w|n x w idx char w1 x1 w2 Hs Hne He _ IH]; intros generated.
    + done.
    + rewrite sample_loop_S, Hs. cbn [fst snd]. rewrite decide_False by done.
      by rewrite He.
Qed.

(** No character of a run is the terminator. *)
Lemma sampled_run_chars v x w draws x' w' :
  sampled_run v x w draws x' w' → terminator ∉ draws.*2.
Proof.
  induction 1 as [|x w idx char w1 x1 w2 draws x' w' Hs Hne He _ IH]; simpl.
  - apply not_elem_of_nil.
  - apply not_elem_of_cons. split; [done|apply IH].
Qed.

(** Every character of a run is the vocabulary's character for the
    index drawn with it. *)
Lemma sample_char_idx v x w idx char w' :
  sample_char v x w = Done ((idx, char), w') → idx2char v idx = Ok char.
Proof.
  unfold sample_char, predict_last, np_choice. intros Hs. run_cases.
Qed.

Lemma sampled_run_idx v x w draws x' w' :
  sampled_run v x w draws x' w' →
  Forall (fun ic => idx2char v ic.1 = Ok ic.2) draws.
Proof.
  induction 1 as [|x w idx char w1 x1 w2 draws x' w' Hs Hne He _ IH];
    constructor; [|done].
  simpl. by eapply sample_char_idx.
Qed.

(** ** Array objects are only ever added *)

Lemma unchanged_refl w : unchanged w w.
Proof. by intros l _. Qed.

Lemma unchanged_trans w1 w2 w3 :
  unchanged w1 w2 → unchanged w2 w3 → unchanged w1 w3.
Proof.
  intros H12 H23 l Hl. rewrite H23, H12; [done..|].
  apply elem_of_dom. rewrite H12 by done. by apply elem_of_dom.
Qed.

Lemma alloc_Done a w l w' :
  alloc a w = Done (l, w') →
  (l ∉ dom (heap w)) ∧ heap w' = <[l := a]> (heap w) ∧ gen w' = gen w.
Proof. unfold alloc. intros [= <- <-]. split; [apply is_fresh|done]. Qed.

Lemma alloc_unchanged a w l w' : alloc a w = Done (l, w') → unchanged w w'.
Proof.
  intros (Hl & Hh & _)%alloc_Done l' Hl'.
  rewrite Hh. apply lookup_insert_ne. by intros ->.
Qed.

Lemma sample_char_heap v x w ic w' :
  sample_char v x w = Done (ic, w') → heap w' = heap w.
Proof.
  unfold sample_char, predict_last, np_choice. intros Hs. run_cases.
Qed.

Lemma extend_unchanged v x idx w x1 w' :
  extend v x idx w = Done (x1, w') → unchanged w w'.
Proof.
  unfold extend, np_zeros3.
  intros (x_new & w1 & Ha & (u & w2 & Hset & Hcat)%bind_Done)%bind_Done.
  pose proof (alloc_unchanged _ _ _ _ Ha) as H01.
  apply alloc_Done in Ha as (Hfresh & Hh1 & _).
  assert (unchanged w w2) as H02.
  { unfold np_set_last_axis in Hset.
    apply bind_Done in Hset as (a & wa & [-> ->]%load_Done & Hset).
    apply bind_Done in Hset as (a' & wb & [_ ->]%lift_Done & ->%store_Done).
    intros l Hl. simpl. rewrite lookup_insert_ne by (by intros ->).
    by apply H01. }
  eapply unchanged_trans; [exact H02|].
  unfold np_concatenate1 in Hcat.
  apply bind_Done in Hcat as (a & wa & [-> ->]%load_Done & Hcat).
  apply bind_Done in Hcat as (b & wb & [-> ->]%load_Done & Hcat).
  apply bind_Done in Hcat as (c & wc & [_ ->]%lift_Done & Hcat).
  by eapply alloc_unchanged.
Qed.

Lemma sampled_run_unchanged v x w draws x' w' :
  sampled_run v x w draws x' w' → unchanged w w'.
Proof.
  induction 1 as [x w idx w' Hs|x w idx char w1 x1 w2 draws x' w' Hs Hne He _ IH].
  - intros l _. by rewrite (sample_char_heap _ _ _ _ _ Hs).
  - eapply unchanged_trans; [|eapply unchanged_trans; [|exact IH]].
    + intros l _. by rewrite (sample_char_heap _ _ _ _ _ Hs).
    + by eapply extend_unchanged.
Qed.

(** [staph.copy()] is a new array object with the value of [staph]. *)
Lemma np_copy_Done staph w x w1 P :
  heap w !! staph = Some P →
  np_copy staph w = Done (x, w1) →
  x ≠ staph ∧ (x ∉ dom (heap w)) ∧
  heap w1 !! x = Some P ∧ heap w1 !! staph = Some P ∧ unchanged w w1.
Proof.
  intros HP. unfold np_copy.
  intros (a & wa & [-> ->]%load_Done & Ha)%bind_Done.
  pose proof (alloc_unchanged _ _ _ _ Ha) as Hun.
  apply alloc_Done in Ha as (Hfresh & Hh1 & _).
  assert (x ≠ staph) as Hne.
  { intros ->. apply Hfresh, elem_of_dom. eauto. }
  split_and!; [done|done| | |done].
  - rewrite Hh1, lookup_insert_eq. f_equal.
    by apply lookup_total_correct.
  - rewrite Hh1, lookup_insert_ne by done. done.
Qed.

Lemma complete_once_Done fuel v prefix staph w cand w' :
  complete_once fuel v prefix staph w = Done (cand, w') →
  ∃ x w1 x' draws,
    np_copy staph w = Done (x, w1) ∧
    sampled_run v x w1 draws x' w' ∧ length draws < fuel ∧
    cand = prefix ++ draws.*2.
Proof.
  unfold complete_once.
  intros (x & w1 & Hcopy & ([x' generated] & w2 & Hloop & [= <- <-])%bind_Done)%bind_Done.
  apply sample_loop_Done in Hloop as (draws & Hrun & -> & Hlen).
  exists x, w1, x', draws. by split_and!.
Qed.

Lemma complete_once_unchanged fuel v prefix staph w cand w' :
  is_Some (heap w !! staph) →
  complete_once fuel v prefix staph w = Done (cand, w') → unchanged w w'.
Proof.
  intros [P HP] (x & w1 & x' & draws & Hcopy & Hrun & _)%complete_once_Done.
  eapply unchanged_trans; [|by eapply sampled_run_unchanged].
  by eapply np_copy_Done.
Qed.

Lemma complete_runs_unchanged runs fuel v prefix staph cands w cands' w' :
  is_Some (heap w !! staph) →
  complete_runs runs fuel v prefix staph cands w = Done (cands', w') →
  unchanged w w'.
Proof.
  revert cands w. induction runs as [|runs IH]; intros cands w HP; simpl.
  - intros [= <- <-]. apply unchanged_refl.
  - intros (c & w1 & Hone & Hrest)%bind_Done.
    pose proof (complete_once_unchanged _ _ _ _ _ _ _ HP Hone) as H01.
    eapply unchanged_trans; [exact H01|]. eapply IH; [|exact Hrest].
    destruct HP as [P HP]. exists P. rewrite H01; [done|].
    apply elem_of_dom. eauto.
Qed.

Lemma generate_name_Done fuel v w name w' :
  generate_name fuel v w = Done (name, w') →
  ∃ first_idx first x w1 x' draws,
    2 < n_x v ∧ first_idx = (randint 2 (n_x v) (gen w)).1 ∧
    idx2char v first_idx = Ok first ∧
    sampled_run v x w1 draws x' w' ∧ length draws < fuel ∧
    name = first :: draws.*2.
Proof.
  unfold generate_name.
  intros (first_idx & wa & Hr & (x & wb & Hz & (u & wc & Hset &
    (first & wd & Hf & ([x' generated] & we & Hloop & [= <- <-])%bind_Done)
    %bind_Done)%bind_Done)%bind_Done)%bind_Done.
  apply sample_loop_Done in Hloop as (draws & Hrun & -> & Hlen).
  exists first_idx, first, x, wd, x', draws.
  unfold np_randint in Hr. destruct (decide (2 < n_x v)) as [Hlt|]; [|done].
  assert (first_idx = (randint 2 (n_x v) (gen w)).1) as ->.
  { revert Hr. unfold with_rng. destruct (randint 2 (n_x v) (gen w)).
    by intros [= <- _]. }
  split_and!; try done.
  by apply lift_Done in Hf as [? _].
Qed.

Lemma complete_runs_candidates runs fuel v prefix staph cands w cands' w' :
  complete_runs runs fuel v prefix staph cands w = Done (cands', w') →
  ∀ cand, cand ∈ cands' →
    cand ∈ cands ∨
    ∃ draws, cand = prefix ++ draws.*2 ∧ (terminator ∉ draws.*2) ∧
             Forall (fun ic => idx2char v ic.1 = Ok ic.2) draws.
Proof.
  revert cands w. induction runs as [|runs IH]; intros cands w; simpl.
  - intros [= <- <-]. by left.
  - intros (c & w1 & Hone & Hrest)%bind_Done cand Hcand.
    destruct (IH _ _ Hrest cand Hcand) as [Hin|?]; [|by right].
    apply elem_of_union in Hin as [->%elem_of_singleton|?]; [|by left].
    apply complete_once_Done in Hone as (x & w2 & x' & draws & _ & Hrun & _ & ->).
    right. exists draws. split_and!; [done| |].
    + by eapply sampled_run_chars.
    + by eapply sampled_run_idx.
Qed.

End SamplerFacts.

(** ** The prefix array *)

Section PrefixFacts.
Context `{Backend}.

Lemma np_setitem3_Done staph a i t k z a' w :
  heap w !! staph = Some a → set3 a i t k z = Ok a' →
  np_setitem3 staph i t k z w = Done (tt, World _ (<[staph := a']> (heap w)) (gen w)).
Proof.
  intros Ha Hset. unfold np_setitem3, bind, load, lift, store.
  by rewrite (lookup_total_correct _ _ _ Ha), Hset.
Qed.

(** The loop that fills [staph], from step [m] on. *)
Lemma fill_prefix_from v staph prefix r : ∀ m w,
  in_vocab v prefix → m + r = length prefix →
  heap w !! staph
    = Some [padded (n_x v) (length prefix) (idx_of v <$> take m prefix)] →
  fill_prefix v staph prefix (seq m r) w
  = Done (tt, World _ (<[staph := prefix_encoding v prefix]> (heap w)) (gen w)).
Proof.
  induction r as [|r IH]; intros m w Hv Hlen Hst; simpl.
  - unfold ret, prefix_encoding.
    rewrite take_ge in Hst by lia. rewrite insert_id by done. by destruct w.
  - destruct (lookup_lt_is_Some_2 prefix m) as [c Hc]; [lia|].
    destruct (in_vocab_lookup _ _ _ _ Hv Hc) as [Hk Hlt].
    unfold bind at 1. unfold char_at. rewrite Hc. simpl.
    unfold bind at 1. rewrite Hk. simpl.
    unfold bind at 1.
    assert (length (idx_of v <$> take m prefix) = m) as Hl
      by (rewrite length_fmap, length_take_le; lia).
    pose proof (set3_padded
                  [padded (n_x v) (length prefix) (idx_of v <$> take m prefix)]
                  (n_x v) (length prefix) 0 (idx_of v <$> take m prefix)
                  (idx_of v c)) as Hset.
    rewrite Hl in Hset.
    rewrite (np_setitem3_Done _ _ _ _ _ _ _ _ Hst (Hset eq_refl ltac:(lia) Hlt)).
    rewrite IH; [|done|lia|].
    + simpl. by rewrite insert_insert_eq.
    + simpl. rewrite lookup_insert_eq. by rewrite (take_S_r _ _ _ Hc), fmap_app.
Qed.

(** Cell 7 up to its loop: [staph] is a new array object whose value is
    the one-hot encoding of the prefix. *)
Lemma encode_prefix_Done v prefix w :
  in_vocab v prefix →
  ∃ staph w1,
    encode_prefix v prefix w = Done (staph, w1) ∧
    (staph ∉ dom (heap w)) ∧
    heap w1 = <[staph := prefix_encoding v prefix]> (heap w) ∧
    gen w1 = gen w.
Proof.
  intros Hv. unfold encode_prefix, np_zeros3.
  set (staph := fresh (dom (heap w))).
  exists staph, (World _ (<[staph := prefix_encoding v prefix]> (heap w)) (gen w)).
  split_and!; [|apply is_fresh|done|done].
  unfold bind at 1. unfold alloc. fold staph.
  unfold bind at 1. unfold range. rewrite Nat2Z.id.
  rewrite (fill_prefix_from v staph prefix (length prefix) 0); [| done | done |].
  - simpl. by rewrite insert_insert_eq.
  - simpl. rewrite lookup_insert_eq. unfold zeros, padded. simpl.
    by rewrite Nat.sub_0_r.
Qed.

Lemma encode_prefix_value v prefix w staph w1 :
  encode_prefix v prefix w = Done (staph, w1) →
  in_vocab v prefix →
  heap w1 !! staph = Some (prefix_encoding v prefix).
Proof.
  intros Henc Hv.
  destruct (encode_prefix_Done v prefix w Hv) as (staph' & w1' & Henc' & _ & Hh & _).
  rewrite Henc in Henc'. injection Henc' as <- <-.
  by rewrite Hh, lookup_insert_eq.
Qed.

Lemma run_starts_all fuel v prefix staph P runs : ∀ w,
  heap w !! staph = Some P →
  Forall (fun a => a = P) (run_starts runs fuel v prefix staph w).
Proof.
  induction runs as [|runs IH]; intros w HP; [constructor|].
  cbn [run_starts].
  destruct (np_copy staph w) as [[x w1]| |] eqn:Hcopy; [|constructor..].
  destruct (np_copy_Done _ _ _ _ _ HP Hcopy) as (_ & _ & Hx & _).
  constructor; [by apply lookup_total_correct|].
  destruct (complete_once fuel v prefix staph w) as [[cand w']| |] eqn:Hone;
    [|constructor..].
  apply IH.
  rewrite (complete_once_unchanged _ _ _ _ _ _ _ (mk_is_Some _ _ HP) Hone); [done|].
  apply elem_of_dom. eauto.
Qed.
End PrefixFacts.

(** X18. Sampling the terminator ends the loop and the terminator is not
    appended: in every run that ends, no character that the sampling loop
    appends to [generated] is the terminator; so the candidate of cell 7
    is the prefix followed by characters other than the terminator, and
    the name of cell 6 is its first character followed by characters other
    than the terminator. *)
Theorem loop_excludes_terminator `{Backend} (fuel : nat) (v : vocab) :
  (∀ x generated w x' generated' w',
     sample_loop fuel v x generated w = Done ((x', generated'), w') →
     ∃ sampled, generated' = generated ++ sampled ∧ terminator ∉ sampled) ∧
  (∀ w name w',
     generate_name fuel v w = Done (name, w') →
     ∃ first sampled, name = first :: sampled ∧ terminator ∉ sampled) ∧
  (∀ prefix staph w cand w',
     complete_once fuel v prefix staph w = Done (cand, w') →
     ∃ sampled, cand = prefix ++ sampled ∧ terminator ∉ sampled).
Proof.
  split_and!.
  - intros x generated w x' generated' w' (draws & Hrun & -> & _)%sample_loop_Done.
    exists (draws.*2). split; [done|]. by eapply sampled_run_chars.
  - intros w name w' Hgen.
    apply generate_name_Done in Hgen
      as (first_idx & first & x & w1 & x' & draws & _ & _ & _ & Hrun & _ & ->).
    exists first, (draws.*2). split; [done|]. by eapply sampled_run_chars.
  - intros prefix staph w cand w' Hone.
    apply complete_once_Done in Hone as (x & w1 & x' & draws & _ & Hrun & _ & ->).
    exists (draws.*2). split; [done|]. by eapply sampled_run_chars.
Qed.

Lemma loop_excludes_terminator_witness :
  (∃ w', @generate_name (tape_backend 6) 10 (build_vocab [py "ecoli@"])
           (tape_world 6 [0; 1; 2; 3; 0]) = Done (py "ecei", w')) ∧
  ∃ first sampled, py "ecei" = first :: sampled ∧ terminator ∉ sampled.
Proof.
  assert (∃ w', @generate_name (tape_backend 6) 10 (build_vocab [py "ecoli@"])
                  (tape_world 6 [0; 1; 2; 3; 0]) = Done (py "ecei", w')) as Hrun.
  { eexists. vm_compute. reflexivity. }
  split; [exact Hrun|]. destruct Hrun as [w' Hrun].
  exact (proj1 (proj2 (@loop_excludes_terminator (tape_backend 6) 10
                         (build_vocab [py "ecoli@"]))) _ _ _ Hrun).
Defined.

(** X19. The whole string returned is free of the terminator: for cell 7
    whenever the prefix is, for every candidate of a pass and of the ten
    passes together; for cell 6 whenever [randint(2, n_x)] draws from 2
    upwards and the terminator, if in the vocabulary at all, is one of its
    two least characters. *)
Theorem names_exclude_terminator `{Backend} (fuel : nat) (v : vocab) :
  (∀ prefix staph w cand w',
     (terminator ∉ prefix) →
     complete_once fuel v prefix staph w = Done (cand, w') →
     terminator ∉ cand) ∧
  (∀ prefix w staph candidates w',
     (terminator ∉ prefix) →
     complete_names fuel v prefix w = Done ((staph, candidates), w') →
     ∀ cand, cand ∈ candidates → terminator ∉ cand) ∧
  ((∀ g, 2 ≤ (randint 2 (n_x v) g).1) →
   (∀ i, idx2char v i = Ok terminator → i < 2) →
   ∀ w name w',
     generate_name fuel v w = Done (name, w') → terminator ∉ name).
Proof.
  split_and!.
  - intros prefix staph w cand w' Hpre Hone.
    apply complete_once_Done in Hone as (x & w1 & x' & draws & _ & Hrun & _ & ->).
    apply not_elem_of_app. split; [done|]. by eapply sampled_run_chars.
  - intros prefix w staph candidates w' Hpre Hnames cand Hcand.
    unfold complete_names in Hnames.
    apply bind_Done in Hnames
      as (staph' & w1 & _ & (cands & w2 & Hruns & [= <- <- <-])%bind_Done).
    destruct (complete_runs_candidates _ _ _ _ _ _ _ _ _ Hruns cand Hcand)
      as [Hin|(draws & -> & Hdraws & _)].
    + by apply elem_of_empty in Hin.
    + apply not_elem_of_app. by split.
  - intros Hrange Hearly w name w' Hgen.
    apply generate_name_Done in Hgen
      as (first_idx & first & x & w1 & x' & draws & _ & Hidx & Hfirst & Hrun & _ & ->).
    apply not_elem_of_cons. split; [|by eapply sampled_run_chars].
    intros <-. apply Hearly in Hfirst.
    specialize (Hrange (gen w)). rewrite <- Hidx in Hrange. lia.
Qed.

Lemma names_exclude_terminator_witness :
  (∃ w', @complete_once (tape_backend 6) 10 (build_vocab [py "ecoli@"]) (py "ec")
           1%positive (ec_world [3; 4; 0]) = Done (py "ecil", w')) ∧
  (terminator ∉ py "ecil") ∧
  (∃ w', @generate_name (tape_backend 6) 10 (build_vocab [py "ecoli@"])
           (tape_world 6 [0; 1; 2; 3; 0]) = Done (py "ecei", w')) ∧
  (terminator ∉ py "ecei").
Proof.
  destruct (@names_exclude_terminator (tape_backend 6) 10 (build_vocab [py "ecoli@"]))
    as (Hcand & _ & Hname).
  assert (∃ w', @complete_once (tape_backend 6) 10 (build_vocab [py "ecoli@"]) (py "ec")
                  1%positive (ec_world [3; 4; 0]) = Done (py "ecil", w')) as Hone.
  { eexists. vm_compute. reflexivity. }
  assert (∃ w', @generate_name (tape_backend 6) 10 (build_vocab [py "ecoli@"])
                  (tape_world 6 [0; 1; 2; 3; 0]) = Done (py "ecei", w')) as Hgen.
  { eexists. vm_compute. reflexivity. }
  split_and!; [exact Hone| |exact Hgen|].
  - destruct Hone as [w' Hone]. refine (Hcand _ _ _ _ _ _ Hone).
    apply (bool_decide_eq_false_1 (terminator ∈ py "ec")). done.
  - destruct Hgen as [w' Hgen]. refine (Hname _ _ _ _ _ Hgen).
    + intros g.
      assert (n_x (build_vocab [py "ecoli@"]) = 6) as -> by (by vm_compute).
      destruct g as [|k g]; simpl; lia.
    + intros i Hi. apply char2idx_idx2char in Hi.
      revert Hi. vm_compute. intros [= <-]. lia.
Defined.

(** C4. The string returned can hold the terminator: the name of cell 6
    starts with the character of an index drawn from [2, n_x), and in a
    vocabulary where two characters sort before '@' that index can be the
    terminator's.  On the corpus of the one-line file "a-b.c" the
    vocabulary is "-.@abc"; [randint(2, 6)] draws 2, the loop then samples
    'b' and '@', and the name returned is "@b", which holds the
    terminator. *)
Lemma unprefixed_name_can_hold_terminator :
  char_list dotted_vocab = py "-.@abc" ∧
  ∃ w', @generate_name (tape_backend 6) 10 dotted_vocab (tape_world 6 [0; 4; 2])
        = Done (py "@b", w') ∧
        terminator ∈ py "@b".
Proof.
  split; [by vm_compute|]. eexists. split; [vm_compute; reflexivity|]. left.
Qed.

(** C5. Every candidate that cell 7 adds is the prefix followed by the
    characters the loop sampled, each the vocabulary's character of the
    index drawn for it. *)
Theorem candidates_start_with_prefix `{Backend} (fuel : nat) (v : vocab)
    (prefix : str) (w : world) staph candidates w' :
  complete_names fuel v prefix w = Done ((staph, candidates), w') →
  ∀ cand, cand ∈ candidates →
    ∃ draws : list (nat * ascii),
      cand = prefix ++ draws.*2 ∧
      take (length prefix) cand = prefix ∧
      Forall (fun ic => idx2char v ic.1 = Ok ic.2) draws.
Proof.
  unfold complete_names.
  intros (staph' & w1 & _ & (cands & w2 & Hruns & [= <- <- <-])%bind_Done)%bind_Done
    cand Hcand.
  destruct (complete_runs_candidates _ _ _ _ _ _ _ _ _ Hruns cand Hcand)
    as [Hin|(draws & -> & _ & Hidx)].
  - by apply elem_of_empty in Hin.
  - exists draws. split_and!; [done| |done]. by rewrite take_app_length.
Qed.

Lemma candidates_start_with_prefix_witness :
  ∃ staph candidates w',
    @complete_names (tape_backend 6) 10 (build_vocab [py "ecoli@"]) (py "ec")
      (tape_world 6 [1; 0; 2; 3; 0; 0; 0; 0; 0; 0; 0; 0; 0])
    = Done ((staph, candidates), w') ∧
    py "ecei" ∈ candidates ∧
    ∃ draws : list (nat * ascii),
      py "ecei" = py "ec" ++ draws.*2 ∧
      take (length (py "ec")) (py "ecei") = py "ec" ∧
      Forall (fun ic => idx2char (build_vocab [py "ecoli@"]) ic.1 = Ok ic.2) draws.
Proof.
  destruct (@complete_names (tape_backend 6) 10 (build_vocab [py "ecoli@"]) (py "ec")
              (tape_world 6 [1; 0; 2; 3; 0; 0; 0; 0; 0; 0; 0; 0; 0]))
    as [[[staph candidates] w']| |] eqn:Hrun; [|by vm_compute in Hrun..].
  assert (py "ecei" ∈ candidates) as Hin.
  { assert (bool_decide (py "ecei" ∈ candidates) = true) as Hb; [|by apply bool_decide_eq_true in Hb].
    revert Hrun. vm_compute. by intros [= <- <- <-]. }
  exists staph, candidates, w'. split_and!; [done|done|].
  exact (candidates_start_with_prefix 10 _ _ _ _ _ _ Hrun _ Hin).
Defined.

(** C10. Frame property of cell 7: [x = staph.copy()] is a new array
    object with the value of [staph]; a sampling run leaves every array
    object that existed before it, [staph] among them, with its value, so
    [staph] holds the same value after any number of runs, and the running
    sequence of every run starts with that value. *)
Theorem prefix_array_unchanged `{Backend} (fuel : nat) (v : vocab) (prefix : str)
    (staph : loc) (w : world) (P : tensor) :
  heap w !! staph = Some P →
  (∀ x w1, np_copy staph w = Done (x, w1) →
     x ≠ staph ∧ (x ∉ dom (heap w)) ∧
     heap w1 !! x = Some P ∧ heap w1 !! staph = Some P) ∧
  (∀ cand w', complete_once fuel v prefix staph w = Done (cand, w') →
     unchanged w w' ∧ heap w' !! staph = Some P) ∧
  (∀ runs candidates candidates' w',
     complete_runs runs fuel v prefix staph candidates w = Done (candidates', w') →
     unchanged w w' ∧ heap w' !! staph = Some P) ∧
  (∀ runs, Forall (fun a => a = P) (run_starts runs fuel v prefix staph w)).
Proof.
  intros HP.
  assert (staph ∈ dom (heap w)) as Hdom by (apply elem_of_dom; eauto).
  split_and!.
  - intros x w1 Hcopy.
    destruct (np_copy_Done _ _ _ _ _ HP Hcopy) as (? & ? & ? & ? & _). done.
  - intros cand w' Hone.
    pose proof (complete_once_unchanged _ _ _ _ _ _ _ (mk_is_Some _ _ HP) Hone) as Hun.
    split; [done|]. by rewrite Hun.
  - intros runs candidates candidates' w' Hruns.
    pose proof (complete_runs_unchanged _ _ _ _ _ _ _ _ _ (mk_is_Some _ _ HP) Hruns)
      as Hun.
    split; [done|]. by rewrite Hun.
  - intros runs. by apply run_starts_all.
Qed.

Lemma prefix_array_unchanged_witness :
  (∃ staph w, @encode_prefix (tape_backend 6) (build_vocab [py "ecoli@"]) (py "ec")
                (tape_world 6 [1; 0; 2; 3; 0]) = Done (staph, w) ∧
              staph = 1%positive ∧ w = ec_world [1; 0; 2; 3; 0]) ∧
  (∃ candidates w',
     @complete_runs (tape_backend 6) 2 10 (build_vocab [py "ecoli@"]) (py "ec")
       1%positive ∅ (ec_world [1; 0; 2; 3; 0]) = Done (candidates, w') ∧
     candidates = {[ py "ecc"; py "ecei" ]} ∧
     unchanged (ec_world [1; 0; 2; 3; 0]) w' ∧
     heap w' !! 1%positive
     = Some (prefix_encoding (build_vocab [py "ecoli@"]) (py "ec"))) ∧
  Forall (fun a => a = prefix_encoding (build_vocab [py "ecoli@"]) (py "ec"))
    (@run_starts (tape_backend 6) 2 10 (build_vocab [py "ecoli@"]) (py "ec")
       1%positive (ec_world [1; 0; 2; 3; 0])).
Proof.
  pose proof (@prefix_array_unchanged (tape_backend 6) 10 (build_vocab [py "ecoli@"])
                (py "ec") 1%positive (ec_world [1; 0; 2; 3; 0])
                (prefix_encoding (build_vocab [py "ecoli@"]) (py "ec")) eq_refl)
    as (_ & _ & Hruns & Hstarts).
  split_and!.
  - eexists _, _. split; [vm_compute; reflexivity|]. split; reflexivity.
  - destruct (@complete_runs (tape_backend 6) 2 10 (build_vocab [py "ecoli@"]) (py "ec")
                1%positive ∅ (ec_world [1; 0; 2; 3; 0]))
      as [[candidates w']| |] eqn:Hrun; [|by vm_compute in Hrun..].
    destruct (Hruns 2 ∅ candidates w' Hrun) as [Hun Hst].
    exists candidates, w'. split_and!; [done| |done|done].
    revert Hrun. vm_compute. by intros [= <- _].
  - apply Hstarts.
Defined.

(** Cell 7 as a whole: for a prefix over the vocabulary, [staph] holds the
    one-hot encoding of the prefix when the cell ends. *)
Lemma complete_names_prefix_value `{Backend} fuel v prefix w staph candidates w' :
  in_vocab v prefix →
  complete_names fuel v prefix w = Done ((staph, candidates), w') →
  heap w' !! staph = Some (prefix_encoding v prefix).
Proof.
  intros Hv. unfold complete_names.
  intros (staph' & w1 & Henc & (cands & w2 & Hruns & [= <- <- <-])%bind_Done)%bind_Done.
  pose proof (encode_prefix_value _ _ _ _ _ Henc Hv) as HP.
  rewrite (complete_runs_unchanged _ _ _ _ _ _ _ _ _ (mk_is_Some _ _ HP) Hruns); [done|].
  apply elem_of_dom. eauto.
Qed.

(** ** The first character of cell 6 *)

(** The index drawn for the first character is not the terminator's when
    the terminator is one of the two least characters of the vocabulary. *)
Lemma first_character_when_terminator_early `{Backend} fuel species w name w' k :
  (∀ g, 2 ≤ (randint 2 (n_x (build_vocab species)) g).1) →
  char2idx (build_vocab species) terminator = Ok k → k < 2 →
  generate_name fuel (build_vocab species) w = Done (name, w') →
  ∃ first rest, name = first :: rest ∧ first ≠ terminator.
Proof.
  intros Hrange Hk Hlt Hgen.
  apply generate_name_Done in Hgen
    as (first_idx & first & x & w1 & x' & draws & _ & Hidx & Hfirst & _ & _ & ->).
  exists first, (draws.*2). split; [done|]. intros ->.
  apply char2idx_idx2char in Hfirst. rewrite Hk in Hfirst.
  injection Hfirst as ->. specialize (Hrange (gen w)). lia.
Qed.

(** C8 on a corpus where two characters sort before '@': the vocabulary of
    the one-line file "a-b.c" is "-.@abc", the terminator has index 2, and
    [randint(2, 6)] may draw 2; the name generated then starts with the
    terminator (here "@c": the loop samples 'c', then '@'). *)
Lemma first_character_can_be_terminator :
  load_species (py "a-b.c" ++ [newline]) = [py "a-b.c@"] ∧
  char_list dotted_vocab = py "-.@abc" ∧
  n_x dotted_vocab = 6 ∧
  idx2char dotted_vocab 2 = Ok terminator ∧
  @np_randint (tape_backend 6) 2 6 (tape_world 6 [4; 5; 2])
  = Done (2, tape_world 6 [5; 2]) ∧
  ∃ w', @generate_name (tape_backend 6) 10 dotted_vocab (tape_world 6 [4; 5; 2])
        = Done (py "@c", w').
Proof.
  split_and!; try by vm_compute.
  eexists. vm_compute. reflexivity.
Qed.

(** ** The name records of cell 2 *)

Lemma load_species_fmap content : load_species content = normalize <$> file_lines content.
Proof.
  unfold load_species. generalize (file_lines content). intros l.
  induction l as [|line l IH] using rev_ind; [done|].
  by rewrite foldl_app, fmap_app, IH.
Qed.

Lemma file_lines_from_newline content : ∀ cur,
  match content with [] => cur = [] | _ => last content = Some newline end →
  Forall (fun line => last line = Some newline) (file_lines_from cur content).
Proof.
  induction content as [|c rest IH]; intros cur Hend; simpl.
  - subst. constructor.
  - destruct (decide (c = newline)) as [->|Hne].
    + constructor; [by rewrite last_snoc|].
      apply IH. destruct rest; [done|]. by rewrite last_cons_cons in Hend.
    + apply IH. destruct rest as [|c' rest].
      * simpl in Hend. congruence.
      * by rewrite last_cons_cons in Hend.
Qed.

Lemma normalize_last line :
  last line = Some newline → last (normalize line) = Some terminator.
Proof.
  intros Hl. unfold normalize, lower, replace. by rewrite !fmap_last, Hl.
Qed.

(** A line that ends with its only newline is stored lowercased, with the
    terminator in the place of the newline. *)
Lemma normalize_line body :
  newline ∉ body → normalize (body ++ [newline]) = lower body ++ [terminator].
Proof.
  intros Hnl. unfold normalize, lower, replace. rewrite !fmap_app. f_equal.
  rewrite <- list_fmap_compose. apply list_fmap_ext.
  intros i c Hc. simpl. rewrite decide_False; [done|].
  intros ->. apply Hnl. apply list_elem_of_lookup. eauto.
Qed.

(** Every line that ends with a newline gives a record that ends in the
    terminator: all records do when the file ends with a newline. *)
Lemma records_end_in_terminator content :
  last content = Some newline →
  Forall (fun name => last name = Some terminator) (load_species content).
Proof.
  intros Hend. rewrite load_species_fmap. apply Forall_fmap.
  eapply Forall_impl; [apply file_lines_from_newline|].
  - by destruct content.
  - intros line Hl. by apply normalize_last.
Qed.

Lemma file_lines_from_nonempty content : ∀ cur,
  Forall (fun line => line ≠ []) (file_lines_from cur content).
Proof.
  induction content as [|c rest IH]; intros cur; simpl.
  - destruct cur; repeat constructor. done.
  - destruct (decide (c = newline)); [|apply IH].
    constructor; [|apply IH]. by destruct cur.
Qed.

(** No name record is the empty string. *)
Lemma records_nonempty content : Forall (fun name => name ≠ []) (load_species content).
Proof.
  rewrite load_species_fmap. apply Forall_fmap.
  eapply Forall_impl; [apply file_lines_from_nonempty|].
  intros line Hne. by destruct line.
Qed.

(** C7 on a file whose last line has no newline: the two lines of the file
    "Abc\nDef" give the records "abc@" and "def", and the second does
    not end in the terminator. *)
Lemma last_line_without_newline_lacks_terminator :
  file_lines (py "Abc" ++ [newline] ++ py "Def") = [py "Abc" ++ [newline]; py "Def"] ∧
  normalize (py "Def") = py "def" ∧
  load_species (py "Abc" ++ [newline] ++ py "Def") = [py "abc@"; py "def"] ∧
  last (py "def") = Some "f"%char ∧
  last (py "def") ≠ Some terminator.
Proof. split_and!; by vm_compute. Qed.

(* ===================================================================== *)
(** * Termination of the sampling loop *)
(* ===================================================================== *)

(** ** One iteration of the loop *)

Section LoopFacts.
Context `{Backend}.
Variable v : vocab.

Lemma sample_char_inv x w k char w' :
  sample_char v x w = Done ((k, char), w') →
  ∃ y_pred,
    next_dist (heap w !!! x) = Ok y_pred ∧
    choice (n_x v) y_pred (gen w) = Ok (k, gen w') ∧
    idx2char v k = Ok char ∧ heap w' = heap w.
Proof.
  unfold sample_char, predict_last, np_choice.
  intros (y_pred & w1 & (a & wa & [-> ->]%load_Done & [Hd ->]%lift_Done)%bind_Done
          & (idx & w2 & Hc & (c & w3 & [Hi ->]%lift_Done & [= <- <- <-])%bind_Done)
            %bind_Done)%bind_Done.
  exists y_pred. unfold with_rng in Hc.
  destruct (choice (n_x v) y_pred (gen w)) as [[k' g']|] eqn:Hch; [|done].
  injection Hc as <- <-. by split_and!.
Qed.

Lemma sample_char_Done x w y_pred k g' char :
  next_dist (heap w !!! x) = Ok y_pred →
  choice (n_x v) y_pred (gen w) = Ok (k, g') →
  idx2char v k = Ok char →
  sample_char v x w = Done ((k, char), World _ (heap w) g').
Proof.
  intros Hd Hc Hi. unfold sample_char, predict_last, np_choice, bind, load, lift,
    with_rng, ret. simpl. by rewrite Hd, Hc, Hi.
Qed.

Lemma set_last_axis_zeros n k :
  k < n → set_last_axis (zeros 1 1 n) k 1%Z = Ok [[one_hot n k]].
Proof.
  intros Hk. unfold set_last_axis, zeros. simpl.
  rewrite decide_True; [done|].
  repeat constructor. by rewrite length_replicate.
Qed.

Lemma concatenate1_shaped n row vec :
  Forall (fun u => length u = n) row → length vec = n →
  concatenate1 [row] [[vec]] = Ok [row ++ [vec]].
Proof.
  intros Hrow Hvec. unfold concatenate1. rewrite decide_True; [done|].
  split; [done|]. unfold same_width. simpl. rewrite !app_nil_r.
  eapply Forall_impl; [exact Hrow|]. intros u Hu. constructor; [congruence|constructor].
Qed.

(** The value of the array [extend] allocates is [extended]'s. *)
Lemma extend_shaped x k w a :
  heap w !! x = Some a → shaped (n_x v) a → k < n_x v →
  ∃ x1 w1 a1,
    extend v x k w = Done (x1, w1) ∧ extended v a k = Ok a1 ∧
    heap w1 !! x1 = Some a1 ∧ shaped (n_x v) a1 ∧ gen w1 = gen w.
Proof.
  intros Hx (row & -> & Hne0 & Hrow) Hk.
  set (x_new := fresh (dom (heap w))).
  assert (x ≠ x_new) as Hne.
  { intros ->. apply (is_fresh (dom (heap w))), elem_of_dom. eauto. }
  set (h1 := <[x_new := [[one_hot (n_x v) k]]]> (<[x_new := zeros 1 1 (n_x v)]> (heap w))).
  set (x1 := fresh (dom h1)).
  exists x1, (World _ (<[x1 := [row ++ [one_hot (n_x v) k]]]> h1) (gen w)),
    [row ++ [one_hot (n_x v) k]].
  assert (extended v [row] k = Ok [row ++ [one_hot (n_x v) k]]) as Hext.
  { unfold extended. rewrite set_last_axis_zeros by done. simpl.
    apply (concatenate1_shaped (n_x v)); [done|apply one_hot_length]. }
  split_and!; [|done|by simpl; rewrite lookup_insert_eq| |done].
  - unfold extend, np_zeros3, np_set_last_axis, np_concatenate1, bind, alloc, load,
      lift, store. simpl. fold x_new.
    rewrite lookup_total_insert_eq, set_last_axis_zeros by done. simpl.
    fold h1. unfold h1 at 1 2.
    rewrite lookup_total_insert_ne, lookup_total_insert_ne by done.
    rewrite (lookup_total_correct _ _ _ Hx).
    rewrite lookup_total_insert_eq.
    rewrite (concatenate1_shaped (n_x v)) by (done || apply one_hot_length).
    reflexivity.
  - exists (row ++ [one_hot (n_x v) k]). split; [done|].
    split; [by destruct row|].
    apply Forall_app. split; [done|]. constructor; [apply one_hot_length|constructor].
Qed.

(** A model that never gives the terminator any mass never has it
    sampled, so no run of the loop ends. *)
Lemma never_sampled x w k char w' :
  choice_in_support → terminator_impossible v →
  sample_char v x w = Done ((k, char), w') → char ≠ terminator.
Proof.
  intros Hsupp Hzero (y_pred & Hd & Hc & Hi & _)%sample_char_inv ->.
  pose proof (Hsupp _ _ _ _ _ Hc) as Hpos.
  pose proof (Hzero _ _ _ Hd Hi) as Hz. lra.
Qed.

Lemma no_sampled_run x w draws x' w' :
  choice_in_support → terminator_impossible v →
  ¬ sampled_run v x w draws x' w'.
Proof.
  intros Hsupp Hzero Hrun.
  induction Hrun as [x w idx w' Hs|x w idx char w1 x1 w2 draws x' w' Hs Hne He _ IH];
    [|done].
  by eapply never_sampled.
Qed.

Lemma always_running fuel : ∀ x w a,
  choice_in_support → terminator_impossible v → draws_succeed v →
  heap w !! x = Some a → shaped (n_x v) a →
  still_running v fuel x w.
Proof.
  induction fuel as [|fuel IH]; intros x w a Hsupp Hzero (Hvoc & Hpred & Hch) Hx Hsh;
    [constructor|].
  destruct (Hpred a Hsh) as [y_pred Hd].
  destruct (Hch a y_pred (gen w) Hd) as (k & g' & Hc & Hk).
  destruct (lookup_lt_is_Some_2 (char_list v) k) as [char Hchar]; [lia|].
  assert (idx2char v k = Ok char) as Hi by (by apply of_option_Ok).
  assert (sample_char v x w = Done ((k, char), World _ (heap w) g')) as Hs.
  { apply (sample_char_Done _ _ y_pred); [|done..].
    by rewrite (lookup_total_correct _ _ _ Hx). }
  destruct (extend_shaped x k (World _ (heap w) g') a Hx Hsh Hk)
    as (x1 & w1 & a1 & He & _ & Hx1 & Hsh1 & _).
  eapply running_S; [exact Hs| |exact He|].
  - by eapply never_sampled.
  - by eapply IH.
Qed.
End LoopFacts.

(** X16. The sampling loop has no bound of its own and stops exactly
    when the terminator is sampled: it returns exactly when a run ends by
    sampling the terminator, after any number of iterations, with the
    characters sampled before it appended to [generated]; and it is still
    running after [n] iterations exactly when none of them sampled the
    terminator or raised. *)
Theorem loop_stops_at_terminator `{Backend} (v : vocab) :
  (∀ fuel x generated w x' generated' w',
     sample_loop fuel v x generated w = Done ((x', generated'), w')
     ↔ ∃ draws, sampled_run v x w draws x' w' ∧
                generated' = generated ++ draws.*2 ∧ length draws < fuel) ∧
  (∀ fuel x generated w,
     sample_loop fuel v x generated w = OutOfFuel ↔ still_running v fuel x w).
Proof.
  split.
  - intros. apply sample_loop_Done.
  - intros. apply sample_loop_OutOfFuel.
Qed.

Lemma loop_stops_at_terminator_witness :
  (∃ x' w' draws,
     @sample_loop (tape_backend 6) 3 (build_vocab [py "ecoli@"]) 1%positive []
       (ec_world [3; 4; 0]) = Done ((x', py "il"), w') ∧
     @sampled_run (tape_backend 6) (build_vocab [py "ecoli@"]) 1%positive
       (ec_world [3; 4; 0]) draws x' w' ∧
     py "il" = [] ++ draws.*2 ∧ length draws < 3) ∧
  (@sample_loop (tape_backend 6) 2 (build_vocab [py "ecoli@"]) 1%positive []
     (ec_world [3; 4; 0]) = OutOfFuel ∧
   @still_running (tape_backend 6) (build_vocab [py "ecoli@"]) 2 1%positive
     (ec_world [3; 4; 0])).
Proof.
  destruct (@loop_stops_at_terminator (tape_backend 6) (build_vocab [py "ecoli@"]))
    as [Hdone Hfuel].
  split.
  - assert (∃ x' w',
      @sample_loop (tape_backend 6) 3 (build_vocab [py "ecoli@"]) 1%positive []
        (ec_world [3; 4; 0]) = Done ((x', py "il"), w')) as (x' & w' & Hrun).
    { eexists _, _. vm_compute. reflexivity. }
    destruct (proj1 (Hdone _ _ _ _ _ _ _) Hrun) as (draws & Hdraws).
    exists x', w', draws. by split.
  - assert (@sample_loop (tape_backend 6) 2 (build_vocab [py "ecoli@"]) 1%positive []
              (ec_world [3; 4; 0]) = OutOfFuel) as Hrun by (by vm_compute).
    split; [done|]. exact (proj1 (Hfuel _ _ _ _) Hrun).
Defined.

(** X17. A model that never gives the terminator any mass: when the
    generator draws indices of positive mass only, no run of the sampling
    loop returns, whatever the fuel; and when moreover no statement of the
    loop body raises, the loop, started on a running sequence of shape
    [(1, T, n_x)], is still running after any number of iterations. *)
Theorem loop_runs_for_ever `{Backend} (v : vocab) :
  choice_in_support → terminator_impossible v →
  (∀ fuel x generated w r, sample_loop fuel v x generated w ≠ Done r) ∧
  (draws_succeed v →
     ∀ fuel x generated w a,
       heap w !! x = Some a → shaped (n_x v) a →
       sample_loop fuel v x generated w = OutOfFuel).
Proof.
  intros Hsupp Hzero. split.
  - intros fuel x generated w [[x' generated'] w'] Hdone.
    apply sample_loop_Done in Hdone as (draws & Hrun & _).
    by eapply no_sampled_run.
  - intros Hok fuel x generated w a Hx Hsh.
    apply sample_loop_OutOfFuel. by eapply always_running.
Qed.

Lemma certain_backend_next_dist n k a y_pred :
  @next_dist (certain_backend n k) a = Ok y_pred → y_pred = point_mass n k.
Proof.
  unfold next_dist. simpl. destruct a as [|row a]; [done|]. simpl.
  unfold last_of. rewrite fmap_last. destruct (last row); simpl; [|done].
  by intros [= <-].
Qed.

Lemma certain_backend_support n k : @choice_in_support (certain_backend n k).
Proof.
  intros m p g i g'. simpl.
  destruct (list_find (fun q => (0 < q)%Q) p) as [[j q]|] eqn:Hfind; [|done].
  destruct (decide (j < m)); [|done]. intros [= <- <-].
  apply list_find_Some in Hfind as (Hq & Hpos & _).
  unfold mass. by rewrite Hq.
Qed.

Lemma certain_backend_impossible :
  @terminator_impossible (certain_backend 6 1) (build_vocab [py "ecoli@"]).
Proof.
  intros a y_pred t ->%certain_backend_next_dist Ht.
  assert (t = 0) as ->; [|done].
  apply of_option_Ok in Ht.
  change (char_list (build_vocab [py "ecoli@"])) with (py "@ceilo") in Ht.
  do 6 (destruct t as [|t]; [by simplify_eq|]). done.
Qed.

Lemma certain_backend_draws :
  @draws_succeed (certain_backend 6 1) (build_vocab [py "ecoli@"]).
Proof.
  split_and!.
  - by vm_compute.
  - intros a (row & -> & Hne & _). exists (point_mass 6 1).
    unfold next_dist. simpl. unfold last_of. rewrite fmap_last.
    destruct (last row) eqn:Hl; [done|]. by apply last_None in Hl.
  - intros a y_pred g ->%certain_backend_next_dist.
    exists 1, g. split; [by vm_compute|].
    assert (n_x (build_vocab [py "ecoli@"]) = 6) as -> by (by vm_compute). lia.
Qed.

Lemma loop_runs_for_ever_witness :
  (∀ fuel r,
     @sample_loop (certain_backend 6 1) fuel (build_vocab [py "ecoli@"]) 1%positive []
       (@World (certain_backend 6 1) {[ 1%positive := [[one_hot 6 2]] ]} tt)
     ≠ Done r) ∧
  (∀ fuel,
     @sample_loop (certain_backend 6 1) fuel (build_vocab [py "ecoli@"]) 1%positive []
       (@World (certain_backend 6 1) {[ 1%positive := [[one_hot 6 2]] ]} tt)
     = OutOfFuel).
Proof.
  destruct (@loop_runs_for_ever (certain_backend 6 1) (build_vocab [py "ecoli@"])
              (certain_backend_support 6 1) certain_backend_impossible)
    as [Hnever Hrunning].
  split.
  - intros fuel r. apply Hnever.
  - intros fuel.
    apply (Hrunning certain_backend_draws fuel 1%positive []
             (@World (certain_backend 6 1) {[ 1%positive := [[one_hot 6 2]] ]} tt)
             [[one_hot 6 2]]).
    + done.
    + exists [one_hot 6 2]. split_and!; [done|done|]. repeat constructor.
Defined.

(* ===================================================================== *)
(** * Further properties of the vocabulary *)
(* ===================================================================== *)

Lemma nat_of_ascii_inj a b : nat_of_ascii a = nat_of_ascii b → a = b.
Proof.
  intros Hab. rewrite <- (ascii_nat_embedding a), <- (ascii_nat_embedding b).
  by rewrite Hab.
Qed.

(** [sorted] puts the characters in strictly increasing order of code
    point, the set having no duplicates. *)
Lemma char_list_increasing species j k a b :
  j < k →
  char_list (build_vocab species) !! j = Some a →
  char_list (build_vocab species) !! k = Some b →
  nat_of_ascii a < nat_of_ascii b.
Proof.
  intros Hjk Ha Hb.
  assert (Total char_le) as Htot by (intros x y; unfold char_le; lia).
  assert (Transitive char_le) as Htr by (intros x y z; unfold char_le; lia).
  pose proof (StronglySorted_merge_sort char_le (elements (char_set_of species)))
    as Hsorted.
  change (merge_sort char_le (elements (char_set_of species)))
    with (char_list (build_vocab species)) in Hsorted.
  pose proof (char_list_NoDup species) as Hnd.
  revert Hsorted Hnd j k Hjk Ha Hb.
  generalize (char_list (build_vocab species)). intros l Hsorted.
  induction Hsorted as [|c l Hsorted IH Hall]; intros Hnd j k Hjk Ha Hb; [done|].
  apply NoDup_cons in Hnd as [Hc Hnd].
  destruct k as [|k]; [lia|]. simpl in Hb.
  destruct j as [|j]; simpl in Ha.
  - injection Ha as ->.
    assert (b ∈ l) as Hin by (apply list_elem_of_lookup; eauto).
    assert (char_le a b) as Hle.
    { rewrite Forall_forall in Hall. by apply Hall. }
    unfold char_le in Hle.
    destruct (decide (nat_of_ascii a = nat_of_ascii b)) as [Heq|]; [|lia].
    apply nat_of_ascii_inj in Heq. by subst.
  - apply (IH Hnd j k); [lia|done..].
Qed.

Lemma filter_all {A} (P : A → Prop) `{∀ x, Decision (P x)} (l : list A) :
  Forall P l → filter P l = l.
Proof.
  induction 1 as [|x l Hx _ IH]; [done|]. by rewrite filter_cons_True, IH.
Qed.

Lemma filter_none {A} (P : A → Prop) `{∀ x, Decision (P x)} (l : list A) :
  Forall (fun x => ¬ P x) l → filter P l = [].
Proof.
  induction 1 as [|x l Hx _ IH]; [done|]. by rewrite filter_cons_False.
Qed.

(** X1. The two mappings are inverse to each other on the vocabulary of a
    corpus: every character of the corpus has an index below [n_x] that
    [idx2char] maps back to it, and every index below [n_x] is the index of
    a character of the corpus that [char2idx] maps back to it. *)
Theorem vocab_round_trip (species : list str) :
  let v := build_vocab species in
  (∀ i c, i ∈ species → c ∈ i →
     ∃ k, char2idx v c = Ok k ∧ k < n_x v ∧ idx2char v k = Ok c) ∧
  (∀ k, k < n_x v →
     ∃ c, idx2char v k = Ok c ∧ char2idx v c = Ok k ∧
          ∃ i, i ∈ species ∧ c ∈ i).
Proof.
  intros v. split.
  - intros i c Hi Hc. destruct (char2idx_corpus species i c Hi Hc) as (k & Hk & Hlt).
    exists k. split_and!; [done|done|]. by apply char2idx_idx2char.
  - intros k Hk. unfold v in Hk. rewrite <- char_list_length in Hk.
    destruct (lookup_lt_is_Some_2 _ _ Hk) as [c Hc].
    assert (idx2char v k = Ok c) as Hi by (by apply of_option_Ok).
    exists c. split_and!; [done|by apply char2idx_idx2char|].
    apply elem_of_char_list, list_elem_of_lookup. eauto.
Qed.

Lemma vocab_round_trip_witness :
  (∃ k, char2idx (build_vocab [py "ecoli@"]) "l"%char = Ok k ∧
        k < n_x (build_vocab [py "ecoli@"]) ∧
        idx2char (build_vocab [py "ecoli@"]) k = Ok "l"%char) ∧
  (∃ c, idx2char (build_vocab [py "ecoli@"]) 5 = Ok c ∧
        char2idx (build_vocab [py "ecoli@"]) c = Ok 5 ∧
        ∃ i, i ∈ [py "ecoli@"] ∧ c ∈ i).
Proof.
  destruct (vocab_round_trip [py "ecoli@"]) as [Hchar Hidx]. split.
  - apply (Hchar (py "ecoli@")); [left|]. do 3 right. left.
  - apply Hidx. by vm_compute.
Defined.

(** X2. Errors of the two mappings on the vocabulary of a corpus:
    [char2idx] raises [KeyError] exactly for a character that occurs in no
    name, [idx2char] raises [IndexError] exactly for an index that is not
    below [n_x]; neither raises anything else. *)
Theorem vocab_mapping_errors (species : list str) (c : ascii) (k : nat) :
  let v := build_vocab species in
  (char2idx v c = Raise KeyError ↔ ¬ ∃ i, i ∈ species ∧ c ∈ i) ∧
  (idx2char v k = Raise IndexError ↔ n_x v ≤ k) ∧
  (∀ e, char2idx v c = Raise e → e = KeyError) ∧
  (∀ e, idx2char v k = Raise e → e = IndexError).
Proof.
  intros v. split_and!.
  - split.
    + intros Hraise (i & Hi & Hc).
      destruct (char2idx_corpus species i c Hi Hc) as (k' & Hk' & _).
      unfold v in Hraise. congruence.
    + intros Hnot. unfold char2idx.
      destruct (char_map v !! c) as [k'|] eqn:Hk'; [|done].
      exfalso. apply Hnot. apply elem_of_char_list, list_elem_of_lookup.
      exists k'. apply (build_char_map_lookup _ c k' (char_list_NoDup species)).
      exact Hk'.
  - unfold idx2char. unfold v. rewrite <- char_list_length. split.
    + destruct (char_list (build_vocab species) !! k) eqn:Hk; [done|].
      intros _. by apply lookup_ge_None.
    + intros Hge. by rewrite lookup_ge_None_2.
  - intros e. unfold char2idx. destruct (char_map v !! c); simpl; congruence.
  - intros e. unfold idx2char. destruct (char_list v !! k); simpl; congruence.
Qed.

Lemma vocab_mapping_errors_witness :
  char2idx (build_vocab [py "ecoli@"]) "z"%char = Raise KeyError ∧
  idx2char (build_vocab [py "ecoli@"]) 6 = Raise IndexError.
Proof.
  destruct (vocab_mapping_errors [py "ecoli@"] "z"%char 6) as (Hc & Hk & _). split.
  - apply Hc. intros (i & Hi & Hz). apply list_elem_of_singleton in Hi as ->.
    revert Hz. apply (bool_decide_eq_false_1 ("z"%char ∈ py "ecoli@")). done.
  - apply Hk. by vm_compute.
Defined.

(** X3. [char_list] holds the characters of the corpus in strictly
    increasing order of code point, and [n_x] of them; the index of a
    character is the number of characters of the vocabulary with a smaller
    code point. *)
Theorem char_list_sorted (species : list str) :
  let v := build_vocab species in
  length (char_list v) = n_x v ∧
  (∀ j k a b, j < k → char_list v !! j = Some a → char_list v !! k = Some b →
     nat_of_ascii a < nat_of_ascii b) ∧
  (∀ c k, char2idx v c = Ok k →
     k = length (filter (fun d => nat_of_ascii d < nat_of_ascii c) (char_list v))).
Proof.
  intros v. subst v. split_and!.
  - apply char_list_length.
  - intros j k a b. apply char_list_increasing.
  - intros c k Hk. apply char2idx_idx2char, of_option_Ok in Hk.
    rewrite <- (take_drop_middle _ _ _ Hk) at 1.
    rewrite filter_app, filter_cons_False by lia.
    rewrite filter_all, filter_none.
    + rewrite app_nil_r, length_take_le; [done|].
      apply lookup_lt_Some in Hk. lia.
    + apply Forall_lookup. intros j d Hd. rewrite lookup_drop in Hd.
      pose proof (char_list_increasing species k (S k + j) c d ltac:(lia) Hk Hd). lia.
    + apply Forall_lookup. intros j d Hd.
      apply lookup_take_Some in Hd as [Hd Hj].
      apply (char_list_increasing species j k d c Hj Hd Hk).
Qed.

Lemma char_list_sorted_witness :
  nat_of_ascii "@" < nat_of_ascii "c" ∧
  2 = length (filter (fun d => nat_of_ascii d < nat_of_ascii "@")
                (char_list dotted_vocab)).
Proof.
  destruct (char_list_sorted (load_species (py "a-b.c" ++ [newline])))
    as (_ & Hinc & Hidx). split.
  - apply (Hinc 2 5); [lia|by vm_compute..].
  - apply (Hidx "@"%char 2). by vm_compute.
Defined.

(* ===================================================================== *)
(** * Further properties of the name records and of the encoder *)
(* ===================================================================== *)

Lemma lower_char_newline c : lower_char c = newline → c = newline.
Proof. destruct c as [[] [] [] [] [] [] [] []]; by vm_compute. Qed.

Lemma lower_char_fixed c : lower_char (lower_char c) = lower_char c.
Proof. destruct c as [[] [] [] [] [] [] [] []]; by vm_compute. Qed.

Lemma lower_char_no_capital c :
  ¬ (65 ≤ nat_of_ascii (lower_char c) ≤ 90).
Proof. destruct c as [[] [] [] [] [] [] [] []]; vm_compute; lia. Qed.

(** X4. Every name record that cell 2 stores, whatever the file, is not
    empty, holds no newline, and is in lower case: [lower] leaves each of
    its characters unchanged and none is an ASCII capital. *)
Theorem records_clean (content : str) (name : str) :
  name ∈ load_species content →
  name ≠ [] ∧ (newline ∉ name) ∧
  Forall (fun c => lower_char c = c ∧ ¬ (65 ≤ nat_of_ascii c ≤ 90)) name.
Proof.
  intros Hin. split_and!.
  - pose proof (records_nonempty content) as Hne. rewrite Forall_forall in Hne.
    by apply Hne.
  - rewrite load_species_fmap in Hin.
    apply list_elem_of_fmap in Hin as (line & -> & _).
    unfold normalize, lower, replace. rewrite <- list_fmap_compose.
    intros (c & Hc & _)%list_elem_of_fmap. simpl in Hc. symmetry in Hc.
    apply lower_char_newline in Hc. by destruct (decide (c = newline)).
  - rewrite load_species_fmap in Hin.
    apply list_elem_of_fmap in Hin as (line & -> & _).
    unfold normalize, lower. apply Forall_fmap, Forall_forall. intros c _. simpl.
    split; [apply lower_char_fixed | apply lower_char_no_capital].
Qed.

Lemma records_clean_witness :
  py "e_coli@" ≠ [] ∧ (newline ∉ py "e_coli@") ∧
  Forall (fun c => lower_char c = c ∧ ¬ (65 ≤ nat_of_ascii c ≤ 90)) (py "e_coli@").
Proof.
  apply (records_clean (py "E_Coli" ++ [newline] ++ py "B")).
  assert (load_species (py "E_Coli" ++ [newline] ++ py "B") = [py "e_coli@"; py "b"])
    as -> by (by vm_compute).
  left.
Defined.

Lemma py_max_in (l : list Z) m : py_max l = Ok m → m ∈ l.
Proof.
  destruct l as [|z l]; simpl; [done|]. intros [= <-].
  revert z. induction l as [|y l IH]; intros z; simpl; [left|].
  pose proof (IH (Z.max z y)) as Hm. apply elem_of_cons in Hm as [Heq|Hin].
  - rewrite Heq. destruct (Z.max_spec z y) as [[_ ->]|[_ ->]]; [right; left|left].
  - do 2 right. done.
Qed.

(** X5. Shape of the training data: on a corpus with a name that is not
    empty, [X] and [Y] have one row per name, every row has [maxlen] steps
    and every step [n_x] entries; [maxlen] is the length of a longest name
    minus one. *)
Theorem encoder_shape (species : list str) :
  Exists (fun chars => chars ≠ []) species →
  let v := build_vocab species in
  ∃ (X Y : tensor) (maxlen : nat),
    maxlen_of species = Ok (Z.of_nat maxlen) ∧
    encode v species = Ok (X, Y) ∧
    length X = length species ∧ length Y = length species ∧
    Forall (fun row => length row = maxlen ∧
                       Forall (fun vec => length vec = n_x v) row) X ∧
    Forall (fun row => length row = maxlen ∧
                       Forall (fun vec => length vec = n_x v) row) Y ∧
    (∃ name, name ∈ species ∧ length name = S maxlen) ∧
    (∀ name, name ∈ species → length name ≤ S maxlen).
Proof.
  intros Hex v. destruct (encode_corpus species Hex) as (maxlen & Hm & Henc).
  exists (X_row v maxlen <$> species), (Y_row v maxlen <$> species), maxlen.
  assert (∀ name, name ∈ species → length name ≤ S maxlen) as Hle.
  { intros name Hin. pose proof (maxlen_of_has_name _ _ _ Hm Hin). lia. }
  assert (∀ n ks, Forall (fun vec => length vec = n) (padded n maxlen ks)) as Hw.
  { intros n ks. unfold padded. apply Forall_app. split.
    - apply Forall_fmap, Forall_forall. intros k _. apply one_hot_length.
    - apply Forall_replicate. apply length_replicate. }
  split_and!; [done|done|by rewrite length_fmap|by rewrite length_fmap| | | |done].
  - apply Forall_fmap, Forall_forall. intros name Hin. simpl. split; [|apply Hw].
    unfold X_row, input_chars. apply padded_length.
    rewrite length_fmap, length_take. specialize (Hle name Hin). lia.
  - apply Forall_fmap, Forall_forall. intros name Hin. simpl. split; [|apply Hw].
    unfold Y_row, target_chars. apply padded_length.
    rewrite length_fmap, length_take, length_drop. specialize (Hle name Hin). lia.
  - apply py_max_in in Hm. apply list_elem_of_fmap in Hm as (name & Hlen & Hin).
    apply Exists_exists in Hex as (chars & Hcin & Hne).
    exists name. split; [done|].
    specialize (Hle chars Hcin). destruct chars; [done|]. simpl in Hle. lia.
Qed.

Lemma encoder_shape_witness :
  ∃ (X Y : tensor) (maxlen : nat),
    maxlen_of [py "ab@"; py "abcd@"] = Ok (Z.of_nat maxlen) ∧
    encode (build_vocab [py "ab@"; py "abcd@"]) [py "ab@"; py "abcd@"] = Ok (X, Y) ∧
    length X = length [py "ab@"; py "abcd@"] ∧
    length Y = length [py "ab@"; py "abcd@"] ∧
    Forall (fun row => length row = maxlen ∧
              Forall (fun vec => length vec = n_x (build_vocab [py "ab@"; py "abcd@"])) row) X ∧
    Forall (fun row => length row = maxlen ∧
              Forall (fun vec => length vec = n_x (build_vocab [py "ab@"; py "abcd@"])) row) Y ∧
    (∃ name, name ∈ [py "ab@"; py "abcd@"] ∧ length name = S maxlen) ∧
    (∀ name, name ∈ [py "ab@"; py "abcd@"] → length name ≤ S maxlen).
Proof.
  apply (encoder_shape [py "ab@"; py "abcd@"]).
  apply Exists_cons_hd. discriminate.
Defined.

(** X6. Every time step of the training data is a one-hot vector or
    all-zero, and [X] and [Y] are padded at the same steps: [X[i,t,:]] and
    [Y[i,t,:]] are both one-hot, for [t < len(name_i) - 1], or both
    all-zero. *)
Theorem encoder_steps (species : list str) :
  Exists (fun chars => chars ≠ []) species →
  let v := build_vocab species in
  ∃ (X Y : tensor),
    encode v species = Ok (X, Y) ∧
    ∀ i t name vx vy,
      species !! i = Some name →
      at2 X i t = Some vx → at2 Y i t = Some vy →
      (t + 1 < length name ∧
       ∃ k k', k < n_x v ∧ k' < n_x v ∧
               vx = one_hot (n_x v) k ∧ vy = one_hot (n_x v) k') ∨
      (length name ≤ t + 1 ∧
       vx = replicate (n_x v) 0%Z ∧ vy = replicate (n_x v) 0%Z).
Proof.
  intros Hex v. destruct (encode_corpus species Hex) as (maxlen & Hm & Henc).
  exists (X_row v maxlen <$> species), (Y_row v maxlen <$> species).
  split; [done|]. intros i t name vx vy Hi Hx Hy.
  rewrite (at2_fmap_row _ _ _ _ _ Hi) in Hx. rewrite (at2_fmap_row _ _ _ _ _ Hi) in Hy.
  assert (name ∈ species) as Hin by (apply list_elem_of_lookup; eauto).
  pose proof (maxlen_of_has_name _ _ _ Hm Hin) as Hle.
  assert (t < maxlen) as Ht.
  { apply lookup_lt_Some in Hx. unfold X_row, input_chars in Hx.
    rewrite padded_length in Hx; [done|]. rewrite length_fmap, length_take. lia. }
  destruct (decide (t + 1 < length name)) as [Hlt|Hge].
  - left. split; [done|].
    destruct (lookup_lt_is_Some_2 name t) as [c Hc]; [lia|].
    destruct (lookup_lt_is_Some_2 name (t + 1)) as [c' Hc']; [lia|].
    assert (in_vocab v name) as Hv.
    { eapply Forall_lookup_1; [apply corpus_in_vocab|done]. }
    destruct (in_vocab_lookup _ _ _ _ Hv Hc) as [_ Hk].
    destruct (in_vocab_lookup _ _ _ _ Hv Hc') as [_ Hk'].
    exists (idx_of v c), (idx_of v c').
    rewrite (X_row_hot v maxlen name t c Hlt Hc) in Hx.
    rewrite (Y_row_hot v maxlen name t c' Hlt Hc') in Hy.
    split_and!; congruence.
  - right. split; [lia|].
    rewrite X_row_zero in Hx by lia. rewrite Y_row_zero in Hy by lia.
    split; congruence.
Qed.

Lemma encoder_steps_witness :
  ∃ (X Y : tensor),
    encode (build_vocab [py "a@"; py "abc@"]) [py "a@"; py "abc@"] = Ok (X, Y) ∧
    ∀ i t name vx vy,
      [py "a@"; py "abc@"] !! i = Some name →
      at2 X i t = Some vx → at2 Y i t = Some vy →
      (t + 1 < length name ∧
       ∃ k k', k < n_x (build_vocab [py "a@"; py "abc@"]) ∧
               k' < n_x (build_vocab [py "a@"; py "abc@"]) ∧
               vx = one_hot (n_x (build_vocab [py "a@"; py "abc@"])) k ∧
               vy = one_hot (n_x (build_vocab [py "a@"; py "abc@"])) k') ∨
      (length name ≤ t + 1 ∧
       vx = replicate (n_x (build_vocab [py "a@"; py "abc@"])) 0%Z ∧
       vy = replicate (n_x (build_vocab [py "a@"; py "abc@"])) 0%Z).
Proof.
  apply (encoder_steps [py "a@"; py "abc@"]).
  apply Exists_cons_hd. discriminate.
Defined.

(** X7. Decoding the target row of a name gives the name without its
    first character: the row of a name record ends with the terminator,
    which no input row holds. *)
Theorem decode_target_row (species : list str) (i : nat) (name : str) :
  Exists (fun chars => chars ≠ []) species →
  species !! i = Some name →
  let v := build_vocab species in
  ∃ (X Y : tensor) row,
    encode v species = Ok (X, Y) ∧ Y !! i = Some row ∧
    decode_row v row = Ok (drop 1 name).
Proof.
  intros Hex Hi v. destruct (encode_corpus species Hex) as (maxlen & Hm & Henc).
  exists (X_row v maxlen <$> species), (Y_row v maxlen <$> species),
    (Y_row v maxlen name).
  split_and!; [done|by rewrite list_lookup_fmap, Hi|].
  unfold Y_row, target_chars.
  rewrite take_ge by (rewrite length_drop; lia).
  apply decode_row_padded.
  apply Forall2_fmap_l, Forall2_same_length_lookup. split; [done|].
  intros j c c' Hc Hc'. assert (c' = c) as -> by congruence.
  rewrite lookup_drop in Hc.
  assert (in_vocab v name) as Hv.
  { eapply Forall_lookup_1; [apply corpus_in_vocab|done]. }
  destruct (in_vocab_lookup _ _ _ _ Hv Hc) as [Hk Hlt].
  split; [by apply char2idx_idx2char | done].
Qed.

Lemma decode_target_row_witness :
  ∃ (X Y : tensor) row,
    encode (build_vocab [py "ecoli@"]) [py "ecoli@"] = Ok (X, Y) ∧
    Y !! 0 = Some row ∧
    decode_row (build_vocab [py "ecoli@"]) row = Ok (drop 1 (py "ecoli@")).
Proof.
  apply (decode_target_row [py "ecoli@"] 0 (py "ecoli@")).
  - apply Exists_cons_hd. discriminate.
  - reflexivity.
Defined.

(** X15. Errors of the encoder: it returns [X] and [Y] when some name of
    the corpus is not empty, and raises [ValueError] otherwise, that is on
    the empty corpus and on a corpus of empty strings only. *)
Theorem encoder_errors (species : list str) :
  let v := build_vocab species in
  (Exists (fun chars => chars ≠ []) species →
     ∃ X Y : tensor, encode v species = Ok (X, Y)) ∧
  (Forall (fun chars => chars = []) species →
     encode v species = Raise ValueError).
Proof.
  intros v. split.
  - intros Hex. destruct (encode_corpus species Hex) as (maxlen & _ & Henc). eauto.
  - intros Hall. unfold encode.
    destruct (maxlen_of species) as [m|e] eqn:Hm.
    + assert (m = (-1)%Z) as ->.
      { apply py_max_in, list_elem_of_fmap in Hm as (chars & -> & Hin).
        rewrite Forall_forall in Hall. by rewrite (Hall chars Hin). }
      done.
    + simpl. unfold maxlen_of in Hm. destruct species; simpl in Hm; congruence.
Qed.

Lemma encoder_errors_witness :
  (∃ X Y : tensor, encode (build_vocab [[]; py "a@"]) [[]; py "a@"] = Ok (X, Y)) ∧
  encode (build_vocab [[]; []]) [[]; []] = Raise ValueError.
Proof.
  split.
  - apply (proj1 (encoder_errors [[]; py "a@"])).
    apply Exists_cons_tl, Exists_cons_hd. discriminate.
  - apply (proj2 (encoder_errors [[]; []])). by repeat constructor.
Defined.

(* ===================================================================== *)
(** * Further properties of the sampling cells *)
(* ===================================================================== *)

Section SamplerMore.
Context `{Backend}.

Lemma extended_inv v row k a1 :
  extended v [row] k = Ok a1 →
  k < n_x v ∧ a1 = [row ++ [one_hot (n_x v) k]].
Proof.
  unfold extended, set_last_axis, zeros. simpl.
  destruct (decide (Forall (Forall (fun vec : list Z => k < length vec))
                      [[replicate (n_x v) 0%Z]])) as [Hk|]; [|done].
  simpl. unfold concatenate1. case_decide; [|done]. simpl. intros [= <-].
  split; [|done].
  apply Forall_inv, Forall_inv in Hk. by rewrite length_replicate in Hk.
Qed.

Lemma extend_inv v x k w x1 w1 a :
  extend v x k w = Done (x1, w1) → heap w !! x = Some a →
  ∃ a1, extended v a k = Ok a1 ∧ heap w1 !! x1 = Some a1.
Proof.
  unfold extend, np_zeros3.
  intros (x_new & wa & Ha & (u & wb & Hset & Hcat)%bind_Done)%bind_Done Hx.
  apply alloc_Done in Ha as (Hfresh & Hha & Hga).
  assert (x ≠ x_new) as Hne.
  { intros ->. apply Hfresh, elem_of_dom. eauto. }
  unfold np_set_last_axis in Hset.
  apply bind_Done in Hset as (z & wz & [-> ->]%load_Done & Hset).
  apply bind_Done in Hset as (a' & wc & [Ha' ->]%lift_Done & ->%store_Done).
  rewrite Hha, lookup_total_insert_eq in Ha'.
  unfold np_concatenate1 in Hcat.
  apply bind_Done in Hcat as (b & wd & [-> ->]%load_Done & Hcat).
  apply bind_Done in Hcat as (b' & we & [-> ->]%load_Done & Hcat).
  apply bind_Done in Hcat as (c & wf & [Hc ->]%lift_Done & Hcat).
  apply alloc_Done in Hcat as (_ & Hh1 & _).
  simpl in Hc. rewrite lookup_total_insert_eq, lookup_total_insert_ne in Hc by done.
  rewrite Hha, lookup_total_insert_ne in Hc by done.
  rewrite (lookup_total_correct _ _ _ Hx) in Hc.
  exists c. split.
  - unfold extended. by rewrite Ha'.
  - by rewrite Hh1, lookup_insert_eq.
Qed.

Lemma sampled_run_sequence v x w draws x' w' : ∀ row,
  sampled_run v x w draws x' w' →
  heap w !! x = Some [row] →
  heap w' !! x' = Some [row ++ (one_hot (n_x v) <$> draws.*1)] ∧
  Forall (fun ic => ic.1 < n_x v ∧ idx2char v ic.1 = Ok ic.2) draws.
Proof.
  intros row Hrun. revert row.
  induction Hrun as [x w idx w' Hs|x w idx char w1 x1 w2 draws x' w' Hs Hne He _ IH];
    intros row Hx.
  - simpl. rewrite app_nil_r, (sample_char_heap _ _ _ _ _ Hs). by split.
  - rewrite <- (sample_char_heap _ _ _ _ _ Hs) in Hx.
    destruct (extend_inv _ _ _ _ _ _ _ He Hx) as (a1 & Hext & Hx1).
    apply extended_inv in Hext as [Hk ->].
    destruct (IH _ Hx1) as [Hfinal Hall]. split.
    + rewrite Hfinal. simpl. by rewrite <- app_assoc.
    + constructor; [|done]. simpl. split; [done|]. by eapply sample_char_idx.
Qed.

Lemma complete_runs_size runs fuel v prefix staph cands w cands' w' :
  complete_runs runs fuel v prefix staph cands w = Done (cands', w') →
  cands ⊆ cands' ∧ size cands' ≤ size cands + runs ∧ (0 < runs → 0 < size cands').
Proof.
  revert cands w. induction runs as [|runs IH]; intros cands w; simpl.
  - intros [= <- <-]. split_and!; [done|lia|lia].
  - intros (c & w1 & _ & Hrest)%bind_Done.
    destruct (IH _ _ Hrest) as (Hsub & Hsize & _).
    assert (size ({[c]} ∪ cands) ≤ S (size cands)) as Hone.
    { rewrite size_union_alt, size_singleton.
      pose proof (subseteq_size (cands ∖ {[c]}) cands ltac:(set_solver)). lia. }
    split_and!; [set_solver|lia|].
    intros _. assert (c ∈ cands') as Hin by set_solver.
    destruct (decide (size cands' = 0)) as [Hz|]; [|lia].
    apply size_empty_inv in Hz. set_solver.
Qed.
End SamplerMore.

(** X8. The running sequence fed to the model always encodes what was
    generated: when the loop, started on a running sequence whose steps
    are [row], returns, the running sequence is [row] followed by the
    one-hot vectors of the indices drawn, one per character appended to
    [generated], each index below [n_x] and each character the
    vocabulary's for its index. *)
Theorem running_sequence_encodes `{Backend} (fuel : nat) (v : vocab) (x : loc)
    (generated : str) (w : world) x' generated' w' (row : list (list Z)) :
  sample_loop fuel v x generated w = Done ((x', generated'), w') →
  heap w !! x = Some [row] →
  ∃ draws : list (nat * ascii),
    generated' = generated ++ draws.*2 ∧
    heap w' !! x' = Some [row ++ (one_hot (n_x v) <$> draws.*1)] ∧
    Forall (fun ic => ic.1 < n_x v ∧ idx2char v ic.1 = Ok ic.2) draws.
Proof.
  intros (draws & Hrun & -> & _)%sample_loop_Done Hx.
  exists draws. split; [done|]. exact (sampled_run_sequence _ _ _ _ _ _ _ Hrun Hx).
Qed.

Lemma running_sequence_encodes_witness :
  ∃ x' generated' w',
    @sample_loop (tape_backend 6) 10 (build_vocab [py "ecoli@"]) 1%positive []
      (ec_world [3; 4; 0]) = Done ((x', generated'), w') ∧
    generated' = py "il" ∧
    ∃ draws : list (nat * ascii),
      generated' = [] ++ draws.*2 ∧
      heap w' !! x'
      = Some [[one_hot 6 2; one_hot 6 1]
              ++ (one_hot (n_x (build_vocab [py "ecoli@"])) <$> draws.*1)] ∧
      Forall (fun ic => ic.1 < n_x (build_vocab [py "ecoli@"]) ∧
                        idx2char (build_vocab [py "ecoli@"]) ic.1 = Ok ic.2) draws.
Proof.
  destruct (@sample_loop (tape_backend 6) 10 (build_vocab [py "ecoli@"]) 1%positive []
              (ec_world [3; 4; 0])) as [[[x' generated'] w']| |] eqn:Hrun;
    [|by vm_compute in Hrun..].
  exists x', generated', w'. split_and!; [done| |].
  - revert Hrun. vm_compute. by intros [= _ <- _].
  - apply (running_sequence_encodes 10 _ _ _ _ _ _ _ _ Hrun). by vm_compute.
Defined.

(** X9. Cell 7 on a prefix: when every character of the prefix occurs in
    the corpus, [staph] is built and holds the one-hot encoding of the
    prefix; when one does not, the cell raises [KeyError] before any name
    is sampled. *)
Theorem prefix_encoded_or_key_error `{Backend} (species : list str) (prefix : str)
    (fuel : nat) (w : world) :
  let v := build_vocab species in
  (Forall (fun c => ∃ i, i ∈ species ∧ c ∈ i) prefix →
     ∃ staph w1, encode_prefix v prefix w = Done (staph, w1) ∧
                 heap w1 !! staph = Some (prefix_encoding v prefix) ∧
                 gen w1 = gen w) ∧
  (Exists (fun c => ¬ ∃ i, i ∈ species ∧ c ∈ i) prefix →
     encode_prefix v prefix w = Raised KeyError ∧
     complete_names fuel v prefix w = Raised KeyError).
Proof.
  intros v. split.
  - intros Hall.
    assert (in_vocab v prefix) as Hv.
    { eapply Forall_impl; [exact Hall|]. intros c (i & Hi & Hc).
      by eapply char2idx_corpus. }
    destruct (encode_prefix_Done v prefix w Hv) as (staph & w1 & Henc & _ & Hh & Hg).
    exists staph, w1. split_and!; [done| |done]. by rewrite Hh, lookup_insert_eq.
  - intros Hex.
    assert (∀ r m w0,
      m + r = length prefix →
      heap w0 !! fresh (dom (heap w))
        = Some [padded (n_x v) (length prefix) (idx_of v <$> take m prefix)] →
      Exists (fun c => ¬ ∃ i, i ∈ species ∧ c ∈ i) (drop m prefix) →
      fill_prefix v (fresh (dom (heap w))) prefix (seq m r) w0 = Raised KeyError)
      as Hfill.
    { induction r as [|r IH]; intros m w0 Hlen Hst Hbad.
      - rewrite drop_ge in Hbad by lia. by apply Exists_nil in Hbad.
      - destruct (lookup_lt_is_Some_2 prefix m) as [c Hc]; [lia|].
        cbn [seq fill_prefix]. unfold bind at 1. unfold char_at. rewrite Hc. simpl.
        unfold bind at 1.
        destruct (char2idx v c) as [k|e] eqn:Hk; simpl.
        + assert (k < n_x v) as Hlt.
          { apply char2idx_idx2char in Hk. by eapply idx2char_lt. }
          assert (length (idx_of v <$> take m prefix) = m) as Hl
            by (rewrite length_fmap, length_take_le; lia).
          pose proof (set3_padded
                        [padded (n_x v) (length prefix) (idx_of v <$> take m prefix)]
                        (n_x v) (length prefix) 0 (idx_of v <$> take m prefix) k) as Hset.
          rewrite Hl in Hset. unfold bind at 1.
          rewrite (np_setitem3_Done _ _ _ _ _ _ _ _ Hst (Hset eq_refl ltac:(lia) Hlt)).
          apply IH; [lia| |].
          * simpl. rewrite lookup_insert_eq.
            rewrite (take_S_r _ _ _ Hc), fmap_app. simpl.
            by rewrite (char2idx_idx_of _ _ _ Hk).
          * rewrite (drop_S _ _ _ Hc) in Hbad.
            apply Exists_cons in Hbad as [Hbad|Hbad]; [|done].
            exfalso. apply Hbad. apply elem_of_char_list.
            apply char2idx_idx2char, of_option_Ok in Hk.
            apply list_elem_of_lookup. eauto.
        + unfold char2idx in Hk. destruct (char_map v !! c); simpl in Hk; [done|].
          by injection Hk as <-. }
    assert (encode_prefix v prefix w = Raised KeyError) as Henc.
    { unfold encode_prefix, np_zeros3. unfold bind at 1. unfold alloc.
      unfold bind at 1. unfold range. rewrite Nat2Z.id.
      rewrite (Hfill (length prefix) 0); [done|done| |done].
      simpl. rewrite lookup_insert_eq. unfold zeros, padded. simpl.
      by rewrite Nat.sub_0_r. }
    split; [done|]. unfold complete_names. unfold bind at 1. by rewrite Henc.
Qed.

Lemma prefix_encoded_or_key_error_witness :
  (∃ staph w1,
     @encode_prefix (tape_backend 6) (build_vocab [py "ecoli@"]) (py "ec")
       (tape_world 6 []) = Done (staph, w1) ∧
     heap w1 !! staph = Some (prefix_encoding (build_vocab [py "ecoli@"]) (py "ec")) ∧
     gen w1 = gen (tape_world 6 [])) ∧
  @complete_names (tape_backend 6) 10 (build_vocab [py "ecoli@"]) (py "staph")
    (tape_world 6 [0; 0]) = Raised KeyError.
Proof.
  split.
  - apply (proj1 (@prefix_encoded_or_key_error (tape_backend 6) [py "ecoli@"] (py "ec")
                    10 (tape_world 6 []))).
    repeat constructor; exists (py "ecoli@"); (split; [left|]).
    + left.
    + right. left.
  - apply (proj2 (@prefix_encoded_or_key_error (tape_backend 6) [py "ecoli@"] (py "staph")
                    10 (tape_world 6 [0; 0]))).
    apply Exists_cons_hd. intros (i & Hi & Hs).
    apply list_elem_of_singleton in Hi as ->.
    revert Hs. apply (bool_decide_eq_false_1 ("s"%char ∈ py "ecoli@")). done.
Defined.

(** X10. The set of candidates that cell 7 prints after its ten runs holds
    at least one and at most ten names: runs that produce the same name
    count once. *)
Theorem candidates_count `{Backend} (fuel : nat) (v : vocab) (prefix : str)
    (w : world) staph candidates w' :
  complete_names fuel v prefix w = Done ((staph, candidates), w') →
  1 ≤ size candidates ≤ 10.
Proof.
  unfold complete_names.
  intros (staph' & w1 & _ & (cands & w2 & Hruns & [= <- <- <-])%bind_Done)%bind_Done.
  destruct (complete_runs_size _ _ _ _ _ _ _ _ _ Hruns) as (_ & Hsize & Hpos).
  rewrite size_empty in Hsize. split; [apply Hpos|]; lia.
Qed.

Lemma candidates_count_witness :
  ∃ staph candidates w',
    @complete_names (tape_backend 6) 10 (build_vocab [py "ecoli@"]) (py "ec")
      (tape_world 6 [1; 0; 2; 3; 0; 0; 0; 0; 0; 0; 0; 0; 0])
    = Done ((staph, candidates), w') ∧
    size candidates = 3 ∧ 1 ≤ size candidates ≤ 10.
Proof.
  destruct (@complete_names (tape_backend 6) 10 (build_vocab [py "ecoli@"]) (py "ec")
              (tape_world 6 [1; 0; 2; 3; 0; 0; 0; 0; 0; 0; 0; 0; 0]))
    as [[[staph candidates] w']| |] eqn:Hrun; [|by vm_compute in Hrun..].
  exists staph, candidates, w'. split; [done|]. split.
  - revert Hrun. vm_compute. by intros [= _ <- _].
  - exact (candidates_count 10 _ _ _ _ _ _ Hrun).
Defined.

(** X11. The name of cell 6: on a vocabulary of at most two characters
    [randint(2, n_x)] raises [ValueError]; otherwise, with [randint]
    drawing from [2, n_x), a name that is generated is not empty and its
    first character is a character of the vocabulary other than its two
    least ones. *)
Theorem generated_name_first_character `{Backend} (fuel : nat) (species : list str)
    (w : world) :
  let v := build_vocab species in
  (n_x v ≤ 2 → generate_name fuel v w = Raised ValueError) ∧
  ((∀ g, 2 ≤ (randint 2 (n_x v) g).1 < n_x v) →
   ∀ name w', generate_name fuel v w = Done (name, w') →
     ∃ first rest, name = first :: rest ∧ first ∈ char_list v ∧
                   char_list v !! 0 ≠ Some first ∧ char_list v !! 1 ≠ Some first).
Proof.
  intros v. split.
  - intros Hn. unfold generate_name, np_randint. unfold bind at 1.
    by rewrite decide_False by lia.
  - intros Hrange name w' Hgen.
    apply generate_name_Done in Hgen
      as (first_idx & first & x & w1 & x' & draws & _ & Hidx & Hfirst & _ & _ & ->).
    exists first, (draws.*2). apply of_option_Ok in Hfirst.
    specialize (Hrange (gen w)). rewrite <- Hidx in Hrange.
    pose proof (char_list_NoDup species) as Hnd.
    split_and!; [done|apply list_elem_of_lookup; eauto| |].
    + intros H0. pose proof (NoDup_lookup _ _ _ _ Hnd Hfirst H0). lia.
    + intros H1. pose proof (NoDup_lookup _ _ _ _ Hnd Hfirst H1). lia.
Qed.

Lemma generated_name_first_character_witness :
  @generate_name (tape_backend 2) 10 (build_vocab [py "a@"]) (tape_world 2 [0; 0])
  = Raised ValueError ∧
  ∃ first rest, py "ecei" = first :: rest ∧
    first ∈ char_list (build_vocab [py "ecoli@"]) ∧
    char_list (build_vocab [py "ecoli@"]) !! 0 ≠ Some first ∧
    char_list (build_vocab [py "ecoli@"]) !! 1 ≠ Some first.
Proof.
  split.
  - apply (proj1 (@generated_name_first_character (tape_backend 2) 10 [py "a@"]
                    (tape_world 2 [0; 0]))).
    by vm_compute.
  - assert (∃ w', @generate_name (tape_backend 6) 10 (build_vocab [py "ecoli@"])
                    (tape_world 6 [0; 1; 2; 3; 0]) = Done (py "ecei", w')) as [w' Hrun].
    { eexists. vm_compute. reflexivity. }
    refine (proj2 (@generated_name_first_character (tape_backend 6) 10 [py "ecoli@"]
                     (tape_world 6 [0; 1; 2; 3; 0])) _ (py "ecei") w' Hrun).
    intros g.
    assert (n_x (build_vocab [py "ecoli@"]) = 6) as -> by (by vm_compute).
    destruct g as [|k g]; simpl; [lia|].
    pose proof (Nat.mod_upper_bound k 4). lia.
Defined.

(* ===================================================================== *)
(** * Properties of the training loop *)
(* ===================================================================== *)

Section TrainingFacts.
Context `{Trainer}.

Lemma train_epoch_printed fuel v X Y st epoch st' :
  train_epoch fuel v X Y st epoch = Done st' →
  (0 < epoch `mod` 10 ∧ printed st' = printed st) ∨
  (epoch `mod` 10 = 0 ∧ ∃ name, name ≠ [] ∧ printed st' = printed st ++ [(epoch, name)]).
Proof.
  unfold train_epoch. destruct (decide (0 < epoch `mod` 10)) as [Hpos|Hzero].
  - destruct (fit (net st) X Y (seed st)) as [[m g]|]; [|done].
    intros [= <-]. by left.
  - destruct (fit (net st) X Y (seed st)) as [[m g]|]; [|done].
    destruct (generate_name fuel v _) as [[name w]| |] eqn:Hgen; [|done..].
    intros [= <-]. right. split; [lia|]. exists name. split; [|done].
    apply (@generate_name_Done (backend_of m)) in Hgen
      as (first_idx & first & x & w1 & x' & draws & _ & _ & _ & _ & _ & ->).
    done.
Qed.

Lemma train_epochs_printed fuel v X Y epochs : ∀ st st',
  train_epochs fuel v X Y st epochs = Done st' →
  ∃ new, printed st' = printed st ++ new ∧
         new.*1 = filter (fun epoch => epoch `mod` 10 = 0) epochs ∧
         Forall (fun en => en.2 ≠ []) new.
Proof.
  induction epochs as [|epoch epochs IH]; intros st st'; cbn [train_epochs].
  - intros [= <-]. exists []. by rewrite app_nil_r.
  - destruct (train_epoch fuel v X Y st epoch) as [st1| |] eqn:Hone; [|done..].
    intros (new & Hp & Hnew & Hne)%IH.
    apply train_epoch_printed in Hone as [[Hpos Hsame]|(Hzero & name & Hname & Hadd)].
    + exists new. rewrite filter_cons_False by lia. by rewrite <- Hsame.
    + exists ((epoch, name) :: new). rewrite filter_cons_True by done.
      split_and!.
      * by rewrite Hp, Hadd, <- app_assoc.
      * rewrite fmap_cons. simpl. by rewrite Hnew.
      * by constructor.
Qed.

Lemma train_epoch_never_samples fuel v X Y st epoch st' :
  (∀ m, @choice_in_support (backend_of m)) →
  (∀ m, @terminator_impossible (backend_of m) v) →
  epoch `mod` 10 = 0 →
  train_epoch fuel v X Y st epoch ≠ Done st'.
Proof.
  intros Hsupp Hzero He. unfold train_epoch. rewrite decide_False by lia.
  destruct (fit (net st) X Y (seed st)) as [[m g]|]; [|done].
  destruct (generate_name fuel v _) as [[name w]| |] eqn:Hgen; [|done..].
  apply (@generate_name_Done (backend_of m)) in Hgen
    as (first_idx & first & x & w1 & x' & draws & _ & _ & _ & Hrun & _).
  by apply (@no_sampled_run (backend_of m) v) in Hrun.
Qed.
End TrainingFacts.

(** X12. Checkpoints of the training loop: a training that ends has
    printed one generated name at each of the epochs 0, 10, ..., 100, in
    that order, and at no other epoch; none of the eleven names is empty. *)
Theorem training_checkpoints `{Trainer} (fuel : nat) (v : vocab) (X Y : tensor)
    (st st' : training) :
  train fuel v X Y st = Done st' →
  ∃ new, printed st' = printed st ++ new ∧
         new.*1 = [0; 10; 20; 30; 40; 50; 60; 70; 80; 90; 100] ∧
         Forall (fun en => en.2 ≠ []) new.
Proof.
  unfold train. intros (new & Hp & Hnew & Hne)%train_epochs_printed.
  exists new. by split_and!.
Qed.

Lemma training_checkpoints_witness :
  ∃ st',
    @train (counting_trainer 6) 5 (build_vocab [py "ecoli@"]) [] []
      (@Training (counting_trainer 6) 0 ∅ (replicate 22 0) []) = Done st' ∧
    @net (counting_trainer 6) st' = 101 ∧
    ∃ new, @printed (counting_trainer 6) st' = [] ++ new ∧
           new.*1 = [0; 10; 20; 30; 40; 50; 60; 70; 80; 90; 100] ∧
           Forall (fun en => en.2 ≠ []) new.
Proof.
  destruct (@train (counting_trainer 6) 5 (build_vocab [py "ecoli@"]) [] []
              (@Training (counting_trainer 6) 0 ∅ (replicate 22 0) []))
    as [st'| |] eqn:Hrun; [|by vm_compute in Hrun..].
  exists st'. split_and!; [done| |].
  - revert Hrun. vm_compute. by intros [= <-].
  - exact (training_checkpoints 5 _ _ _ _ _ Hrun).
Defined.

(** X13. Training on a vocabulary of at most two characters never ends:
    the first epoch fits the model and then raises [ValueError], from
    [randint(2, n_x)], unless [fit] itself raised. *)
Theorem training_small_vocabulary `{Trainer} (fuel : nat) (species : list str)
    (X Y : tensor) (st : training) :
  n_x (build_vocab species) ≤ 2 →
  match fit (net st) X Y (seed st) with
  | Ok _ => train fuel (build_vocab species) X Y st = Raised ValueError
  | Raise e => train fuel (build_vocab species) X Y st = Raised e
  end.
Proof.
  intros Hn. unfold train. change (range 101) with (0 :: seq 1 100).
  cbn [train_epochs]. unfold train_epoch. rewrite decide_False by (simpl; lia).
  destruct (fit (net st) X Y (seed st)) as [[m g]|e]; [|done].
  unfold generate_name, np_randint. unfold bind at 1.
  by rewrite decide_False by lia.
Qed.

Lemma training_small_vocabulary_witness :
  @train (counting_trainer 2) 5 (build_vocab [py "a@"]) [] []
    (@Training (counting_trainer 2) 0 ∅ [0; 0] []) = Raised ValueError.
Proof.
  apply (@training_small_vocabulary (counting_trainer 2) 5 [py "a@"] [] []
           (@Training (counting_trainer 2) 0 ∅ [0; 0] [])).
  by vm_compute.
Defined.

(** X14. The diagnostic sample blocks the training: when the model, in
    whatever state, never gives the terminator any mass (and the generator
    draws indices of positive mass only), training never ends; at its
    first epoch it raises or samples for ever. *)
Theorem training_blocked_by_sampling `{Trainer} (fuel : nat) (v : vocab)
    (X Y : tensor) (st : training) :
  (∀ m, @choice_in_support (backend_of m)) →
  (∀ m, @terminator_impossible (backend_of m) v) →
  ∀ st', train fuel v X Y st ≠ Done st'.
Proof.
  intros Hsupp Hzero st'. unfold train. change (range 101) with (0 :: seq 1 100).
  cbn [train_epochs].
  destruct (train_epoch fuel v X Y st 0) as [st1| |] eqn:Hone; [|done..].
  by apply train_epoch_never_samples in Hone.
Qed.

Lemma training_blocked_by_sampling_witness :
  (∀ st', @train (certain_trainer 6 1) 5 (build_vocab [py "ecoli@"]) [] []
            (@Training (certain_trainer 6 1) 0 ∅ tt []) ≠ Done st') ∧
  @train (certain_trainer 6 1) 5 (build_vocab [py "ecoli@"]) [] []
    (@Training (certain_trainer 6 1) 0 ∅ tt []) = OutOfFuel.
Proof.
  split; [|by vm_compute].
  apply (@training_blocked_by_sampling (certain_trainer 6 1) 5
           (build_vocab [py "ecoli@"]) [] []).
  - intros m. exact (certain_backend_support 6 1).
  - intros m. exact certain_backend_impossible.
Defined.
